(** * A verified model of the router history (createHistory and its adapters)

    The development embeds the history module of the router: the location
    parser [parseLocation], the generic core [createHistory] (task queue,
    blocker list, listener set) and the in-memory and browser adapters.

    Modelling conventions.
    - A JavaScript [number] used as an index or cursor is a [Z]; a JavaScript
      string is a [string] (one character per code unit; only ['#'] and ['?']
      are ever inspected).
    - A JavaScript array is an object with integer-keyed properties and a
      [length]: a [gmap Z string] together with a length.  Reads out of range
      give [None] (JavaScript's [undefined]).
    - The mutable variables captured by the closures of [createHistory] are the
      fields of one record; every operation is a step of a small state and
      exception monad over that record.
    - Callbacks are identified by a number.  Calling a listener or a blocker is
      recorded in a log; what a blocker does with the two continuations it is
      handed is modelled by the operations [retry] and [cancel], which may be
      applied at any later point. *)

From Stdlib Require Import ZArith Ascii String Lia.
From stdpp Require Import base option list gmap strings.

Local Open Scope string_scope.
Local Open Scope list_scope.
Local Open Scope Z_scope.

(** ** JavaScript string primitives *)

Module JsString.

Fixpoint take (n : nat) (s : string) : string :=
  match n, s with
  | O, _ => EmptyString
  | Datatypes.S _, EmptyString => EmptyString
  | Datatypes.S n', String c s' => String c (take n' s')
  end.

Fixpoint drop (n : nat) (s : string) : string :=
  match n, s with
  | O, _ => s
  | Datatypes.S _, EmptyString => EmptyString
  | Datatypes.S n', String _ s' => drop n' s'
  end.

(** Position of the first occurrence of [c], if any. *)
Fixpoint find (c : ascii) (s : string) : option nat :=
  match s with
  | EmptyString => None
  | String d s' =>
      if Ascii.eqb d c then Some O
      else match find c s' with
           | Some i => Some (Datatypes.S i)
           | None => None
           end
  end.

Definition len (s : string) : Z := Z.of_nat (String.length s).

(** [s.indexOf(c)]: the first position of [c], or [-1]. *)
Definition indexOf (c : ascii) (s : string) : Z :=
  match find c s with
  | Some i => Z.of_nat i
  | None => -1
  end.

(** The characters of [s] at positions [lo <= i < hi]. *)
Definition range (s : string) (lo hi : Z) : string :=
  take (Z.to_nat (hi - lo)) (drop (Z.to_nat lo) s).

(** [s.substring(start, end)]: both bounds are clamped to [0, length] and
    swapped when [start > end]; a missing [end] is the length. *)
Definition substring (s : string) (start : Z) (end_ : option Z) : string :=
  let clamp i := Z.min (Z.max i 0) (len s) in
  let a := clamp start in
  let b := match end_ with Some e => clamp e | None => len s end in
  range s (Z.min a b) (Z.max a b).

(** [s.slice(start, end)]: a negative bound counts from the end, bounds are
    clamped, and the result is empty when [start >= end]. *)
Definition slice (s : string) (start : Z) (end_ : option Z) : string :=
  let rel i := if i <? 0 then Z.max (len s + i) 0 else Z.min i (len s) in
  let from := rel start in
  let to := match end_ with Some e => rel e | None => len s end in
  range s from (Z.max from to).

End JsString.

(** ** Locations and the location parser *)

Section Location.

Context {St : Type}.

Record RouterLocation : Type := mkLocation {
  href : string;
  pathname : string;
  search : string;
  hash : string;
  state : St
}.

Definition parseLocation (href : string) (state : St) : RouterLocation :=
  let hashIndex := JsString.indexOf "#" href in
  let searchIndex := JsString.indexOf "?" href in
  {| href := href;
     pathname :=
       JsString.substring href 0
         (Some (if 0 <? hashIndex
                then if 0 <? searchIndex
                     then Z.min hashIndex searchIndex
                     else hashIndex
                else if 0 <? searchIndex
                     then searchIndex
                     else JsString.len href));
     hash :=
       if -1 <? hashIndex then JsString.substring href hashIndex None
       else "";
     search :=
       if -1 <? searchIndex
       then JsString.slice href searchIndex
              (if hashIndex =? -1 then None else Some hashIndex)
       else "";
     state := state |}.

(** [pathname + search + hash] of a location. *)
Definition recompose (l : RouterLocation) : string :=
  pathname l +:+ search l +:+ hash l.

End Location.

Arguments RouterLocation St : clear implicits.


(** ** JavaScript arrays of strings

    An array is an object: integer-keyed properties and a [length].  A write
    at or beyond the length extends the array; a write at a negative key sets
    an ordinary property and leaves the length alone; a read of an absent key
    is [undefined] ([None]). *)

Module JsArray.

Record t : Type := mk {
  items : gmap Z string;
  length : Z
}.

Definition of_list (l : list string) : t :=
  {| items := map_seqZ 0 l; length := Z.of_nat (List.length l) |}.

(** [a[i]] *)
Definition get (a : t) (i : Z) : option string := items a !! i.

(** [a[i] = v] *)
Definition set (a : t) (i : Z) (v : string) : t :=
  {| items := <[i := v]> (items a);
     length := if length a <=? i then i + 1 else length a |}.

(** [a.push(v)] *)
Definition push (a : t) (v : string) : t :=
  {| items := <[length a := v]> (items a); length := length a + 1 |}.

(** Every position below the length holds an element. *)
Definition dense (a : t) : Prop :=
  forall i, 0 <= i < length a -> is_Some (get a i).

End JsArray.

(** ** History states

    [createRandomKey] draws from [Math.random]; the model numbers the draws and
    uses the number of the draw as the key.  A state written by
    [pushState]/[replaceState] is [{ ...state, key }]. *)

Definition Key : Type := nat.

Inductive HistoryState (St : Type) : Type :=
  | EmptyState
  | Keyed (payload : St) (key : Key).

Arguments EmptyState {St}.
Arguments Keyed {St} payload key.

(** [createRandomKey()], given how many keys have been drawn: the key and the
    new count. *)
Definition createRandomKey (drawn : nat) : Key * nat :=
  (drawn, Datatypes.S drawn).

(** ** Completions: a call returns or throws *)

Inductive Completion (A : Type) : Type :=
  | Normal (a : A)
  | Throw.

Arguments Normal {A} a.
Arguments Throw {A}.

Definition completed {A} (c : Completion A) : bool :=
  match c with Normal _ => true | Throw => false end.

(** State and exception monad: the state survives a throw. *)
Definition M (S A : Type) : Type := S -> Completion A * S.

Definition ret {S A} (a : A) : M S A := fun s => (Normal a, s).

Definition bind {S A B} (m : M S A) (k : A -> M S B) : M S B :=
  fun s =>
    match m s with
    | (Normal a, s') => k a s'
    | (Throw, s') => (Throw, s')
    end.

Definition modify {S} (f : S -> S) : M S unit := fun s => (Normal tt, f s).

Notation "m1 >> m2" := (bind m1 (fun _ => m2))
  (at level 65, right associativity).

(** The state after running [m], thrown or not. *)
Definition exec {S A} (m : M S A) (s : S) : S := snd (m s).

(** Whether [m] returns normally from [s]. *)
Definition returns {S A} (m : M S A) (s : S) : bool := completed (fst (m s)).

Fixpoint times {S} (n : nat) (m : M S unit) : M S unit :=
  match n with
  | O => ret tt
  | Datatypes.S n' => m >> times n' m
  end.

(** ** The generic core: [createHistory] *)

Definition Callback : Type := nat.
Definition BlockerFn : Type := nat.

(** [Set.add] and [Set.delete] on a set kept in insertion order. *)
Definition set_add (cb : Callback) (l : list Callback) : list Callback :=
  if decide (cb ∈ l) then l else l ++ [cb].

Definition set_delete (cb : Callback) (l : list Callback) : list Callback :=
  filter (fun x => x ≠ cb) l.

Section Core.

Context {St W : Type}.

(** The closures put on the queue by [push], [replace], [go], [back] and
    [forward]. *)
Inductive Task : Type :=
  | PushTask (path : string) (state : St)
  | ReplaceTask (path : string) (state : St)
  | GoTask (n : Z)
  | BackTask
  | ForwardTask.

(** The [opts] of [createHistory], over the adapter's world [W].
    [getLocation] is [None] when the call throws.  A primitive returns the
    new world and how many times it synchronously called the handler that
    [listener] installed.  [listener] returns the new world and the teardown
    closure. *)
Record Opts : Type := mkOpts {
  getLocation : W -> option (RouterLocation (HistoryState St));
  listener : option (W -> W * (W -> W));
  pushState : string -> St -> W -> W * nat;
  replaceState : string -> St -> W -> W * nat;
  go : Z -> W -> W * nat;
  back : W -> W * nat;
  forward : W -> W * nat;
  createHref : string -> string
}.

(** The variables closed over by the returned history object, the adapter's
    world, the global [beforeunload] registration, and the two call logs. *)
Record History : Type := mkHistory {
  world : W;
  location : RouterLocation (HistoryState St);
  unsub : W -> W;
  listeners : list Callback;
  blockers : list BlockerFn;
  queue : list Task;
  beforeUnload : bool;
  notified : list Callback;
  consulted : list BlockerFn
}.

Definition with_world (w : W) (h : History) : History :=
  mkHistory w (location h) (unsub h) (listeners h) (blockers h) (queue h)
    (beforeUnload h) (notified h) (consulted h).

Definition with_unsub (u : W -> W) (h : History) : History :=
  mkHistory (world h) (location h) u (listeners h) (blockers h) (queue h)
    (beforeUnload h) (notified h) (consulted h).

Definition with_listeners (l : list Callback) (h : History) : History :=
  mkHistory (world h) (location h) (unsub h) l (blockers h) (queue h)
    (beforeUnload h) (notified h) (consulted h).

Definition with_blockers (b : list BlockerFn) (h : History) : History :=
  mkHistory (world h) (location h) (unsub h) (listeners h) b (queue h)
    (beforeUnload h) (notified h) (consulted h).

Definition with_queue (q : list Task) (h : History) : History :=
  mkHistory (world h) (location h) (unsub h) (listeners h) (blockers h) q
    (beforeUnload h) (notified h) (consulted h).

Definition with_beforeUnload (b : bool) (h : History) : History :=
  mkHistory (world h) (location h) (unsub h) (listeners h) (blockers h)
    (queue h) b (notified h) (consulted h).

Definition with_consulted (c : list BlockerFn) (h : History) : History :=
  mkHistory (world h) (location h) (unsub h) (listeners h) (blockers h)
    (queue h) (beforeUnload h) (notified h) c.

Variable opts : Opts.

(** [stopBlocking]: remove the [beforeunload] listener. *)
Definition stopBlocking : M History unit := modify (with_beforeUnload false).

(** [onUpdate]: [location = opts.getLocation()], then every listener is
    called, in insertion order. *)
Definition onUpdate : M History unit :=
  fun h =>
    match getLocation opts (world h) with
    | None => (Throw, h)
    | Some l =>
        (Normal tt,
         mkHistory (world h) l (unsub h) (listeners h) (blockers h)
           (queue h) (beforeUnload h) (notified h ++ listeners h)
           (consulted h))
    end.

(** The adapter call made by a queued closure. *)
Definition primitive (t : Task) : W -> W * nat :=
  match t with
  | PushTask path state => pushState opts path state
  | ReplaceTask path state => replaceState opts path state
  | GoTask n => go opts n
  | BackTask => back opts
  | ForwardTask => forward opts
  end.

(** Running a queued closure: the adapter call, inside which the installed
    handler ([onUpdate]) runs as often as the adapter calls it. *)
Definition runTask (t : Task) : M History unit :=
  fun h =>
    let (w, fired) := primitive t (world h) in
    times fired onUpdate (with_world w h).

(** [while (queue.length) queue.shift()?.()], with one unit of fuel per
    iteration. *)
Fixpoint flushLoop (fuel : nat) : M History unit :=
  fun h =>
    match fuel, queue h with
    | Datatypes.S fuel', t :: q =>
        (runTask t >> flushLoop fuel') (with_queue q h)
    | _, _ => (Normal tt, h)
    end.

(** The continuation [cancel] handed to a blocker. *)
Definition cancel : M History unit :=
  modify (with_blockers []) >> stopBlocking.

Definition tryFlush : M History unit :=
  fun h =>
    match blockers h with
    | b :: _ =>
        (* blockers[0]?.(tryFlush, cancel); return *)
        (Normal tt, with_consulted (consulted h ++ [b]) h)
    | [] =>
        (flushLoop (List.length (queue h)) >>
         match listener opts with
         | None => onUpdate
         | Some _ => ret tt
         end) h
    end.

(** The continuation [retry] handed to a blocker is [tryFlush] itself. *)
Definition retry : M History unit := tryFlush.

Definition queueTask (task : Task) : M History unit :=
  modify (fun h => with_queue (queue h ++ [task]) h) >> tryFlush.

Definition push (path : string) (state : St) : M History unit :=
  queueTask (PushTask path state).

Definition replace (path : string) (state : St) : M History unit :=
  queueTask (ReplaceTask path state).

Definition history_go (n : Z) : M History unit := queueTask (GoTask n).

Definition history_back : M History unit := queueTask BackTask.

Definition history_forward : M History unit := queueTask ForwardTask.

Definition history_createHref (str : string) : string := createHref opts str.

(** [listen(cb)]; the function it returns is [unlisten cb]. *)
Definition listen (cb : Callback) : M History unit :=
  modify (fun h =>
    let h1 :=
      match listeners h with
      | [] =>
          match listener opts with
          | Some subscribe =>
              let (w, teardown) := subscribe (world h) in
              with_unsub teardown (with_world w h)
          | None => with_unsub (fun w => w) h
          end
      | _ :: _ => h
      end in
    with_listeners (set_add cb (listeners h1)) h1).

Definition unlisten (cb : Callback) : M History unit :=
  modify (fun h =>
    let h1 := with_listeners (set_delete cb (listeners h)) h in
    match listeners h1 with
    | [] => with_world (unsub h1 (world h1)) h1
    | _ :: _ => h1
    end).

(** [block(cb)]; the function it returns is [unblock cb]. *)
Definition block (cb : BlockerFn) : M History unit :=
  modify (fun h =>
    let h1 := with_blockers (blockers h ++ [cb]) h in
    match blockers h1 with
    | [_] => with_beforeUnload true h1
    | _ => h1
    end).

Definition unblock (cb : BlockerFn) : M History unit :=
  fun h =>
    let h1 := with_blockers (filter (fun b => b ≠ cb) (blockers h)) h in
    match blockers h1 with
    | [] => stopBlocking h1
    | _ :: _ => (Normal tt, h1)
    end.

(** [createHistory(opts)] on the world [w]: [None] when the initial
    [opts.getLocation()] throws. *)
Definition createHistory (w : W) : option History :=
  match getLocation opts w with
  | Some l => Some (mkHistory w l (fun w => w) [] [] [] false [] [])
  | None => None
  end.

(** The effect of a list of queued closures on the adapter alone. *)
Definition commit (t : Task) (w : W) : W := fst (primitive t w).

Definition commitAll (ts : list Task) (w : W) : W :=
  fold_left (fun w t => commit t w) ts w.

End Core.

Arguments Task St : clear implicits.
Arguments Opts St W : clear implicits.
Arguments History St W : clear implicits.

(** ** The in-memory adapter: [createMemoryHistory] *)

Section Memory.

Context {St : Type}.

(** The variables closed over by the adapter ([entries], [index],
    [currentState]), the number of random keys drawn so far, and the calls
    made to the platform's [window.history.go]. *)
Record MemoryWorld : Type := mkMemory {
  entries : JsArray.t;
  index : Z;
  currentState : HistoryState St;
  draws : nat;
  platformGo : list Z
}.

(** [parseLocation(entries[index]!, currentState)]: reading [indexOf] of
    [undefined] throws. *)
Definition memoryGetLocation (w : MemoryWorld)
  : option (RouterLocation (HistoryState St)) :=
  match JsArray.get (entries w) (index w) with
  | Some href => Some (parseLocation href (currentState w))
  | None => None
  end.

Definition memoryPushState (path : string) (state : St) (w : MemoryWorld)
  : MemoryWorld * nat :=
  let (key, drawn) := createRandomKey (draws w) in
  ({| entries := JsArray.push (entries w) path;
      index := index w + 1;
      currentState := Keyed state key;
      draws := drawn;
      platformGo := platformGo w |}, O).

Definition memoryReplaceState (path : string) (state : St) (w : MemoryWorld)
  : MemoryWorld * nat :=
  let (key, drawn) := createRandomKey (draws w) in
  ({| entries := JsArray.set (entries w) (index w) path;
      index := index w;
      currentState := Keyed state key;
      draws := drawn;
      platformGo := platformGo w |}, O).

Definition memoryBack (w : MemoryWorld) : MemoryWorld * nat :=
  ({| entries := entries w;
      index := index w - 1;
      currentState := currentState w;
      draws := draws w;
      platformGo := platformGo w |}, O).

Definition memoryForward (w : MemoryWorld) : MemoryWorld * nat :=
  ({| entries := entries w;
      index := Z.min (index w + 1) (JsArray.length (entries w) - 1);
      currentState := currentState w;
      draws := draws w;
      platformGo := platformGo w |}, O).

(** [go: (n) => window.history.go(n)] *)
Definition memoryGo (n : Z) (w : MemoryWorld) : MemoryWorld * nat :=
  ({| entries := entries w;
      index := index w;
      currentState := currentState w;
      draws := draws w;
      platformGo := platformGo w ++ [n] |}, O).

Definition memoryOpts : Opts St MemoryWorld :=
  {| getLocation := memoryGetLocation;
     listener := None;
     pushState := memoryPushState;
     replaceState := memoryReplaceState;
     go := memoryGo;
     back := memoryBack;
     forward := memoryForward;
     createHref := fun path => path |}.

(** The world set up by [createMemoryHistory(opts)]:
    [index = opts.initialIndex ?? entries.length - 1], [currentState = {}]. *)
Definition memoryWorld (initialEntries : list string)
    (initialIndex : option Z) : MemoryWorld :=
  let entries := JsArray.of_list initialEntries in
  {| entries := entries;
     index := match initialIndex with
              | Some i => i
              | None => JsArray.length entries - 1
              end;
     currentState := EmptyState;
     draws := O;
     platformGo := [] |}.

Definition createMemoryHistory (initialEntries : list string)
    (initialIndex : option Z) : option (History St MemoryWorld) :=
  createHistory memoryOpts (memoryWorld initialEntries initialIndex).

(** The cursor designates an element of the array. *)
Definition cursorValid (w : MemoryWorld) : Prop :=
  0 <= index w < JsArray.length (entries w).

(** The array is dense and the cursor designates one of its elements. *)
Definition memoryWellFormed (w : MemoryWorld) : Prop :=
  JsArray.dense (entries w) /\ cursorValid w.

End Memory.

Arguments MemoryWorld St : clear implicits.

(** ** The browser adapter: [createBrowserHistory]

    The platform is not part of the repository.  It is modelled by what the
    adapter touches: the address ([pathname + search + hash] as one string),
    [history.state], the navigation requests made through [go], [back] and
    [forward], how many wrappers the adapter has put around
    [window.history.pushState] and [replaceState], and whether the handler is
    registered for the [pushstate] and [popstate] events.  The native
    [pushState(state, '', url)] and [replaceState] set the address to [url]
    and the state to [state]. *)

Section Browser.

Context {St : Type}.

Inductive Request : Type :=
  | RequestGo (n : Z)
  | RequestBack
  | RequestForward.

Record Window : Type := mkWindow {
  address : string;
  historyState : HistoryState St;
  wrappers : nat;
  bound : bool;
  requests : list Request;
  keysDrawn : nat;
  installed : nat;     (* calls of [opts.listener] *)
  restored : nat       (* calls of a teardown closure *)
}.

(** [opts?.getHref] and [opts?.createHref], defaults filled in. *)
Variable getHref : Window -> string.
Variable createHref' : string -> string.

(** [parseLocation(getHref(), history.state)] *)
Definition browserGetLocation (w : Window)
  : option (RouterLocation (HistoryState St)) :=
  Some (parseLocation (getHref w) (historyState w)).

(** [listener]: register the handler for both events, wrap [pushState] and
    [replaceState]; the teardown restores the functions captured here. *)
Definition browserListener (w : Window) : Window * (Window -> Window) :=
  let captured := wrappers w in
  ({| address := address w;
      historyState := historyState w;
      wrappers := Datatypes.S captured;
      bound := true;
      requests := requests w;
      keysDrawn := keysDrawn w;
      installed := Datatypes.S (installed w);
      restored := restored w |},
   fun w' =>
     {| address := address w';
        historyState := historyState w';
        wrappers := captured;
        bound := false;
        requests := requests w';
        keysDrawn := keysDrawn w';
        installed := installed w';
        restored := Datatypes.S (restored w') |}).

(** [window.history.pushState({ ...state, key }, '', createHref(path))] and
    the same for [replaceState] (the platform model does not keep the entry
    stack, so the two differ only in name): the native call, then one call
    of the handler per wrapper. *)
Definition browserWrite (path : string) (state : St) (w : Window)
  : Window * nat :=
  let (key, drawn) := createRandomKey (keysDrawn w) in
  ({| address := createHref' path;
      historyState := Keyed state key;
      wrappers := wrappers w;
      bound := bound w;
      requests := requests w;
      keysDrawn := drawn;
      installed := installed w;
      restored := restored w |}, wrappers w).

Definition browserRequest (r : Request) (w : Window) : Window * nat :=
  ({| address := address w;
      historyState := historyState w;
      wrappers := wrappers w;
      bound := bound w;
      requests := requests w ++ [r];
      keysDrawn := keysDrawn w;
      installed := installed w;
      restored := restored w |}, O).

Definition browserOpts : Opts St Window :=
  {| getLocation := browserGetLocation;
     listener := Some browserListener;
     pushState := browserWrite;
     replaceState := browserWrite;
     go := fun n => browserRequest (RequestGo n);
     back := browserRequest RequestBack;
     forward := browserRequest RequestForward;
     createHref := createHref' |}.

End Browser.

Arguments Window St : clear implicits.

(** [createBrowserHistory()] with the default [getHref] and [createHref] on a
    page at [address]. *)
Definition freshWindow {St} (address : string) : Window St :=
  mkWindow address EmptyState O false [] O O O.

Definition createBrowserHistory {St} (w : Window St)
  : option (History St (Window St)) :=
  createHistory (browserOpts address (fun path => path)) w.

(** ** Sequences of calls and observations on the core *)

Section Observations.

Context {St W : Type}.
Variable opts : Opts St W.

(** Each of [push], [replace], [go], [back] and [forward] enqueues one
    closure and attempts a flush; a sequence of such calls is given by the
    list of the closures they enqueue.  A later call is made whether or not
    an earlier one threw. *)
Definition issue (ts : list (Task St)) (h : History St W) : History St W :=
  fold_left (fun h t => exec (queueTask opts t) h) ts h.

(** The state after a script of calls on the history object. *)
Definition after (ms : list (M (History St W) unit)) (h : History St W)
  : History St W :=
  fold_left (fun h m => exec m h) ms h.

(** An adapter without a listener capability is never handed the core's
    handler, so none of its primitives calls it. *)
Definition handlerFree : Prop :=
  listener opts = None /\ forall t w, snd (primitive opts t w) = O.

(** How many handler calls the adapter makes while the closures [ts] run
    from the world [w]. *)
Fixpoint handlerCalls (ts : list (Task St)) (w : W) : nat :=
  match ts with
  | [] => O
  | t :: ts' =>
      (snd (primitive opts t w) + handlerCalls ts' (commit opts t w))%nat
  end.

(** Everything of the core but the adapter's world, the queue, the location
    and the notification log is the same in [h] and [h']. *)
Definition sameControl (h h' : History St W) : Prop :=
  unsub h' = unsub h /\ listeners h' = listeners h
  /\ blockers h' = blockers h /\ beforeUnload h' = beforeUnload h
  /\ consulted h' = consulted h.

(** [listen] for each callback in turn, and the unsubscribe function of each
    called once in turn. *)
Definition listenAll (cbs : list Callback) : list (M (History St W) unit) :=
  map (listen opts) cbs.

Definition unlistenAll (cbs : list Callback)
  : list (M (History St W) unit) :=
  map unlisten cbs.

End Observations.

(** ** Scripts: the calls a client can make on a history object *)

Section Scripts.

Context {St W : Type}.
Variable opts : Opts St W.

(** [CallUnlisten cb] is a call of the function returned by [listen(cb)],
    [CallUnblock b] of the function returned by [block(b)]; [CallRetry] and
    [CallCancel] are calls of the continuations handed to a consulted
    blocker. *)
Inductive Call : Type :=
  | CallPush (path : string) (state : St)
  | CallReplace (path : string) (state : St)
  | CallGo (n : Z)
  | CallBack
  | CallForward
  | CallListen (cb : Callback)
  | CallUnlisten (cb : Callback)
  | CallBlock (b : BlockerFn)
  | CallUnblock (b : BlockerFn)
  | CallRetry
  | CallCancel.

Definition perform (c : Call) : M (History St W) unit :=
  match c with
  | CallPush path state => push opts path state
  | CallReplace path state => replace opts path state
  | CallGo n => history_go opts n
  | CallBack => history_back opts
  | CallForward => history_forward opts
  | CallListen cb => listen opts cb
  | CallUnlisten cb => unlisten cb
  | CallBlock b => block b
  | CallUnblock b => unblock b
  | CallRetry => retry opts
  | CallCancel => cancel
  end.

(** The state after a script; a call is made whether or not an earlier one
    threw. *)
Definition run (cs : list Call) (h : History St W) : History St W :=
  fold_left (fun h c => exec (perform c) h) cs h.

End Scripts.

Arguments Call St : clear implicits.

(** ** The platform subscription of the browser adapter *)

(** Installed: one wrapper around the platform functions and the handler
    registered for the events.  Not installed: neither. *)
Definition subscribed {St} (w : Window St) : Prop :=
  wrappers w = 1%nat /\ bound w = true.

Definition unsubscribed {St} (w : Window St) : Prop :=
  wrappers w = O /\ bound w = false.

(** The subscription is installed exactly while a listener is registered,
    and the stored teardown uninstalls it. *)
Definition subscriptionInv {St} (h : History St (Window St)) : Prop :=
  NoDup (listeners h)
  /\ match listeners h with
     | [] =>
         unsubscribed (world h)
         /\ forall w, unsubscribed w -> unsubscribed (unsub h w)
     | _ :: _ =>
         subscribed (world h) /\ forall w, unsubscribed (unsub h w)
     end.

(** ** Adapters at the state type [unit], for the examples *)

Definition mem : Opts unit (MemoryWorld unit) := memoryOpts.

Definition web : Opts unit (Window unit) :=
  browserOpts address (fun path => path).

(** ** Further observations: task lists, the in-memory cursor, the guard *)

Definition isBack {St} (t : Task St) : bool :=
  match t with BackTask => true | _ => false end.

(** No closure of the list is a [back]. *)
Definition noBack {St} (ts : list (Task St)) : Prop :=
  Forall (fun t => isBack t = false) ts.

(** Every call of the sequence returns. *)
Fixpoint allReturn {St W} (opts : Opts St W) (ts : list (Task St))
    (h : History St W) : bool :=
  match ts with
  | [] => true
  | t :: ts' =>
      returns (queueTask opts t) h
      && allReturn opts ts' (exec (queueTask opts t) h)
  end.

(** The cursor is on the last entry; the cursor is not past the last entry. *)
Definition atEnd {St} (w : MemoryWorld St) : Prop :=
  index w = JsArray.length (entries w) - 1.

Definition withinEnd {St} (w : MemoryWorld St) : Prop :=
  0 <= JsArray.length (entries w)
  /\ index w <= JsArray.length (entries w) - 1.

(** The [beforeunload] guard is registered exactly while a blocker is. *)
Definition guardInv {St W} (h : History St W) : Prop :=
  beforeUnload h = true <-> blockers h <> [].

(** * Properties *)

(** ** Strings *)

Module JsStringFacts.
Import JsString.

Lemma app_cons c s t : String c s +:+ t = String c (s +:+ t).
Proof. reflexivity. Qed.

Lemma app_nil_l s : "" +:+ s = s.
Proof. reflexivity. Qed.

Lemma app_nil_r s : s +:+ "" = s.
Proof. induction s as [|c s IH]; [done |]. by rewrite app_cons, IH. Qed.

Lemma take_drop n s : take n s +:+ drop n s = s.
Proof.
  revert s; induction n as [|n IH]; intros [|c s]; simpl; try done.
  by rewrite app_cons, IH.
Qed.

Lemma take_all n s : (String.length s <= n)%nat -> take n s = s.
Proof.
  revert s; induction n as [|n IH]; intros [|c s]; simpl; intros Hn;
    try done; try lia.
  rewrite IH; [done | lia].
Qed.

Lemma drop_all n s : (String.length s <= n)%nat -> drop n s = "".
Proof.
  revert s; induction n as [|n IH]; intros [|c s]; simpl; intros Hn;
    try done; try lia.
  apply IH; lia.
Qed.

Lemma take_add n m s : take (n + m) s = take n s +:+ take m (drop n s).
Proof.
  revert s; induction n as [|n IH]; intros s; simpl.
  - by destruct m, s.
  - destruct s as [|c s]; simpl; [by destruct m |].
    by rewrite app_cons, IH.
Qed.

Lemma drop_add n m s : drop (n + m) s = drop m (drop n s).
Proof.
  revert s; induction n as [|n IH]; intros s; simpl; [done |].
  destruct s as [|c s]; [by destruct m | apply IH].
Qed.

Lemma find_lt c s i : find c s = Some i -> (i < String.length s)%nat.
Proof.
  revert i; induction s as [|d s IH]; simpl; intros i; [done |].
  destruct (Ascii.eqb d c); [intros [= <-]; lia |].
  destruct (find c s) as [j|]; [intros [= <-] | done].
  specialize (IH j eq_refl); lia.
Qed.

(** [indexOf] is [-1] or a position of the string. *)
Lemma indexOf_range c s : indexOf c s = -1 \/ 0 <= indexOf c s < len s.
Proof.
  unfold indexOf, len. destruct (find c s) as [i|] eqn:E; [right | by left].
  apply find_lt in E. lia.
Qed.

Lemma range_all s : range s 0 (len s) = s.
Proof.
  unfold range, len. simpl. apply take_all. lia.
Qed.

Lemma range_empty s a b : b <= a -> range s a b = "".
Proof.
  unfold range. intros H. replace (Z.to_nat (b - a)) with O by lia.
  by destruct (drop _ _).
Qed.

Lemma range_split s a b c :
  0 <= a <= b -> b <= c -> range s a b +:+ range s b c = range s a c.
Proof.
  unfold range. intros Hab Hbc.
  replace (Z.to_nat (c - a)) with (Z.to_nat (b - a) + Z.to_nat (c - b))%nat
    by lia.
  rewrite take_add, <- drop_add.
  by replace (Z.to_nat a + Z.to_nat (b - a))%nat with (Z.to_nat b) by lia.
Qed.

Lemma length_app s t :
  String.length (s +:+ t) = (String.length s + String.length t)%nat.
Proof. induction s as [|c s IH]; [done |]. rewrite app_cons. simpl. by rewrite IH. Qed.

Lemma length_take n s : String.length (take n s) = Nat.min n (String.length s).
Proof.
  revert s; induction n as [|n IH]; intros [|c s]; simpl; try done.
  by rewrite IH.
Qed.

Lemma length_drop n s : String.length (drop n s) = (String.length s - n)%nat.
Proof.
  revert s; induction n as [|n IH]; intros [|c s]; simpl; try done.
Qed.

Lemma len_range s a b :
  0 <= a <= b -> b <= len s -> len (range s a b) = b - a.
Proof.
  intros Ha Hb. unfold len, range in *. rewrite length_take, length_drop. lia.
Qed.

Lemma len_app s t : len (s +:+ t) = len s + len t.
Proof. unfold len. rewrite length_app. lia. Qed.

Lemma substring_range s a b :
  0 <= a <= b -> b <= len s -> substring s a (Some b) = range s a b.
Proof. intros Ha Hb. unfold substring. f_equal; lia. Qed.

Lemma substring_from s a :
  0 <= a <= len s -> substring s a None = range s a (len s).
Proof. intros Ha. unfold substring. f_equal; lia. Qed.

Lemma slice_from s a :
  0 <= a <= len s -> slice s a None = range s a (len s).
Proof.
  intros Ha. unfold slice. destruct (Z.ltb_spec a 0); [lia |].
  f_equal; lia.
Qed.

Lemma slice_range s a b :
  0 <= a <= len s -> 0 <= b <= len s ->
  slice s a (Some b) = range s a (Z.max a b).
Proof.
  intros Ha Hb. unfold slice.
  destruct (Z.ltb_spec a 0), (Z.ltb_spec b 0); try lia.
  f_equal; lia.
Qed.

End JsStringFacts.

(** ** The location parser *)

Section ParseFacts.

Context {St : Type}.
Implicit Types (s : string) (st : St).

Import JsString JsStringFacts.

Lemma parseLocation_href s st :
  href (parseLocation s st) = s.
Proof. done. Qed.

Lemma parseLocation_state s st :
  state (parseLocation s st) = st.
Proof. done. Qed.

(** Without ['#'] and ['?'] the whole string is the pathname. *)
Lemma parseLocation_plain s st :
  indexOf "#" s = -1 -> indexOf "?" s = -1 ->
  pathname (parseLocation s st) = s
  /\ search (parseLocation s st) = ""
  /\ hash (parseLocation s st) = "".
Proof.
  intros Hh Hq. unfold parseLocation; simpl. rewrite Hh, Hq; simpl.
  split; [| done].
  rewrite substring_range by (unfold len; lia). apply range_all.
Qed.

(** The three components concatenate back to the input whenever neither
    delimiter is the first character. *)
Lemma parseLocation_recompose s st :
  indexOf "#" s <> 0 -> indexOf "?" s <> 0 ->
  recompose (parseLocation s st) = s.
Proof.
  intros Hh Hq. unfold recompose, parseLocation; simpl.
  assert (0 <= len s) as Hlen by (unfold len; lia).
  destruct (indexOf_range "#" s) as [Eh|Rh],
           (indexOf_range "?" s) as [Eq|Rq].
  - rewrite Eh, Eq; simpl.
    rewrite substring_range by lia. rewrite range_all.
    by rewrite !app_nil_r.
  - rewrite Eh; simpl.
    destruct (Z.ltb_spec 0 (indexOf "?" s)); [| lia].
    destruct (Z.ltb_spec (-1) (indexOf "?" s)); [| lia].
    rewrite substring_range, slice_from by lia.
    rewrite app_nil_r. by rewrite range_split, range_all by lia.
  - rewrite Eq; simpl.
    destruct (Z.ltb_spec 0 (indexOf "#" s)); [| lia].
    destruct (Z.ltb_spec (-1) (indexOf "#" s)); [| lia].
    rewrite substring_range, substring_from by lia.
    by rewrite app_nil_l, range_split, range_all by lia.
  - destruct (Z.ltb_spec 0 (indexOf "#" s)); [| lia].
    destruct (Z.ltb_spec 0 (indexOf "?" s)); [| lia].
    destruct (Z.ltb_spec (-1) (indexOf "#" s)); [| lia].
    destruct (Z.ltb_spec (-1) (indexOf "?" s)); [| lia].
    destruct (Z.eqb_spec (indexOf "#" s) (-1)); [lia |].
    rewrite substring_range, substring_from, slice_range by lia.
    destruct (Z.le_gt_cases (indexOf "?" s) (indexOf "#" s)).
    + rewrite Z.min_r, Z.max_r by lia.
      by rewrite !range_split, range_all by lia.
    + rewrite Z.min_l, Z.max_l by lia.
      rewrite (range_empty _ (indexOf "?" s) (indexOf "?" s)) by lia.
      by rewrite app_nil_l, range_split, range_all by lia.
Qed.

(** A delimiter in first position is counted twice: the components are then
    longer than the input. *)
Lemma parseLocation_recompose_longer s st :
  indexOf "#" s = 0 \/ indexOf "?" s = 0 ->
  len s < len (recompose (parseLocation s st)).
Proof.
  intros H0. unfold recompose, parseLocation; simpl.
  assert (0 <= len s) as Hlen by (unfold len; lia).
  rewrite !len_app.
  destruct (indexOf_range "#" s) as [Eh|Rh],
           (indexOf_range "?" s) as [Eq|Rq]; [lia | | |].
  - rewrite Eh in *; simpl. destruct H0 as [|Hq]; [done |]. rewrite Hq in *.
    simpl. rewrite substring_range, slice_from by lia.
    rewrite !len_range by lia. unfold len at 4; simpl. lia.
  - rewrite Eq in *; simpl. destruct H0 as [Hh|]; [| done]. rewrite Hh in *.
    simpl. rewrite substring_range, substring_from by lia.
    rewrite !len_range by lia. unfold len at 3; simpl. lia.
  - destruct (Z.ltb_spec (-1) (indexOf "#" s)); [| lia].
    destruct (Z.ltb_spec (-1) (indexOf "?" s)); [| lia].
    destruct (Z.eqb_spec (indexOf "#" s) (-1)); [lia |].
    rewrite substring_from, slice_range by lia.
    rewrite (len_range s (indexOf "#" s)) by lia.
    destruct (Z.ltb_spec 0 (indexOf "#" s)), (Z.ltb_spec 0 (indexOf "?" s));
      [lia | | |];
      rewrite substring_range by lia; rewrite !len_range by lia; lia.
Qed.

(** X2: the components of a parsed href concatenate back to the href exactly
    when neither ['#'] nor ['?'] is its first character. *)
Lemma parseLocation_recompose_iff s st :
  recompose (parseLocation s st) = s
  <-> indexOf "#" s <> 0 /\ indexOf "?" s <> 0.
Proof.
  split; [| intros []; by apply parseLocation_recompose].
  intros E.
  destruct (decide (indexOf "#" s = 0)) as [Hh|Hh];
    [| destruct (decide (indexOf "?" s = 0)) as [Hq|Hq]; [| done]].
  - pose proof (parseLocation_recompose_longer s st (or_introl Hh)) as Hlt.
    rewrite E in Hlt. lia.
  - pose proof (parseLocation_recompose_longer s st (or_intror Hq)) as Hlt.
    rewrite E in Hlt. lia.
Qed.

End ParseFacts.

(** ** The core: queue, flush and handler *)

Section CoreFacts.

Context {St W : Type}.
Variable opts : Opts St W.
Implicit Types (h : History St W) (t : Task St) (ts : list (Task St)).

Lemma sameControl_refl h : sameControl h h.
Proof. by repeat split. Qed.

Lemma sameControl_trans h1 h2 h3 :
  sameControl h1 h2 -> sameControl h2 h3 -> sameControl h1 h3.
Proof.
  unfold sameControl. intros (-> & -> & -> & -> & ->) (-> & -> & -> & -> & ->).
  done.
Qed.

(** [onUpdate] throws exactly when [getLocation] does; otherwise it stores
    the location and calls the listeners once each, in order. *)
Lemma onUpdate_Some h l :
  getLocation opts (world h) = Some l ->
  onUpdate opts h =
    (Normal tt,
     mkHistory (world h) l (unsub h) (listeners h) (blockers h) (queue h)
       (beforeUnload h) (notified h ++ listeners h) (consulted h)).
Proof. intros E. unfold onUpdate. by rewrite E. Qed.

Lemma onUpdate_None h :
  getLocation opts (world h) = None -> onUpdate opts h = (Throw, h).
Proof. intros E. unfold onUpdate. by rewrite E. Qed.

Lemma onUpdate_frame h :
  let h' := exec (onUpdate opts) h in
  world h' = world h /\ queue h' = queue h /\ sameControl h h'.
Proof.
  unfold exec, onUpdate.
  destruct (getLocation opts (world h)); simpl;
    (split; [done | split; [done | by repeat split]]).
Qed.

Lemma times_onUpdate_frame n h :
  let h' := exec (times n (onUpdate opts)) h in
  world h' = world h /\ queue h' = queue h /\ sameControl h h'.
Proof.
  revert h; induction n as [|n IH]; intros h; simpl.
  { split; [done | split; [done | apply sameControl_refl]]. }
  unfold exec, bind.
  destruct (onUpdate_frame h) as (Hw & Hq & Hc). unfold exec in Hw, Hq, Hc.
  destruct (onUpdate opts h) as [[[]|] h1]; simpl in *.
  - destruct (IH h1) as (Hw' & Hq' & Hc'). unfold exec in Hw', Hq', Hc'.
    rewrite Hw', Hq', Hw, Hq. split; [done | split; [done |]].
    eapply sameControl_trans; eauto.
  - done.
Qed.

(** A queued closure commits its adapter call whether or not a handler call
    inside it throws. *)
Lemma runTask_frame t h :
  let h' := exec (runTask opts t) h in
  world h' = commit opts t (world h) /\ queue h' = queue h
  /\ sameControl h h'.
Proof.
  unfold exec, runTask, commit.
  destruct (primitive opts t (world h)) as [w n]; simpl.
  apply (times_onUpdate_frame n (with_world w h)).
Qed.

(** A closure during which the adapter calls no handler only changes the
    adapter's world. *)
Lemma runTask_silent t h :
  snd (primitive opts t (world h)) = O ->
  runTask opts t h = (Normal tt, with_world (commit opts t (world h)) h).
Proof.
  unfold runTask, commit.
  destruct (primitive opts t (world h)) as [w n]; simpl. by intros ->.
Qed.

Lemma commitAll_app ts1 ts2 (w : W) :
  commitAll opts (ts1 ++ ts2) w = commitAll opts ts2 (commitAll opts ts1 w).
Proof. unfold commitAll. apply fold_left_app. Qed.

(** The flush loop is first-in first-out: what it has run is a prefix of
    the queue, committed in order, and what is left is the rest.  When the
    loop returns with enough fuel, nothing is left. *)
Lemma flushLoop_fifo fuel h :
  let h' := exec (flushLoop opts fuel) h in
  exists ran,
    ran ++ queue h' = queue h
    /\ world h' = commitAll opts ran (world h)
    /\ sameControl h h'
    /\ (returns (flushLoop opts fuel) h = true ->
        (List.length (queue h) <= fuel)%nat -> queue h' = []).
Proof.
  revert h; induction fuel as [|fuel IH]; intros h; simpl.
  { exists []. unfold exec, returns; simpl.
    split; [done | split; [done | split; [apply sameControl_refl |]]].
    intros _ Hl. destruct (queue h); [done |]. simpl in Hl; lia. }
  unfold exec, returns; simpl.
  destruct (queue h) as [|t q] eqn:Eq; simpl.
  { exists []. rewrite Eq.
    by split; [| split; [| split; [apply sameControl_refl |]]]. }
  unfold bind.
  pose proof (runTask_frame t (with_queue q h)) as (Hw & Hq & Hc).
  unfold exec in Hw, Hq, Hc.
  destruct (runTask opts t (with_queue q h)) as [[[]|] h1]; simpl in *.
  - destruct (IH h1) as (ran & Hran & Hw' & Hc' & Hret).
    unfold exec, returns in Hran, Hw', Hc', Hret.
    exists (t :: ran). simpl. rewrite Hran, Hq, Hw', Hw.
    split; [done | split; [done | split]].
    + eapply sameControl_trans; [| exact Hc']. exact Hc.
    + intros Hr Hl. apply Hret; [done |]. rewrite Hq. lia.
  - exists [t]. simpl. rewrite Hq, Hw.
    by split; [| split; [| split]].
Qed.

(** With an adapter that calls no handler the loop runs the whole queue and
    returns. *)
Lemma flushLoop_silent fuel h :
  (forall t w, snd (primitive opts t w) = O) ->
  (List.length (queue h) <= fuel)%nat ->
  flushLoop opts fuel h =
    (Normal tt,
     with_queue [] (with_world (commitAll opts (queue h) (world h)) h)).
Proof.
  intros Hsilent. revert h; induction fuel as [|fuel IH]; intros h Hl; simpl.
  { destruct h as [w l u ls bs [|t q] bu nt cs]; simpl in *; [done | lia]. }
  destruct h as [w l u ls bs [|t q] bu nt cs]; simpl in *; [done |].
  unfold bind. rewrite runTask_silent by apply Hsilent. simpl.
  rewrite IH by (simpl; lia). done.
Qed.

(** While a blocker is installed a flush attempt only consults the first
    blocker. *)
Lemma tryFlush_blocked h b bs :
  blockers h = b :: bs ->
  tryFlush opts h = (Normal tt, with_consulted (consulted h ++ [b]) h).
Proof. intros E. unfold tryFlush. by rewrite E. Qed.

Lemma queueTask_blocked h b bs t :
  blockers h = b :: bs ->
  queueTask opts t h =
    (Normal tt,
     with_consulted (consulted h ++ [b]) (with_queue (queue h ++ [t]) h)).
Proof.
  intros E. unfold queueTask, bind, modify.
  by rewrite (tryFlush_blocked _ b bs).
Qed.

(** Calls made while a blocker is installed are only queued, in order. *)
Lemma issue_blocked ts h :
  blockers h <> [] ->
  let h' := issue opts ts h in
  world h' = world h /\ location h' = location h
  /\ queue h' = queue h ++ ts /\ blockers h' = blockers h
  /\ notified h' = notified h /\ listeners h' = listeners h.
Proof.
  revert h; induction ts as [|t ts IH]; intros h Hb; simpl.
  { by rewrite app_nil_r. }
  destruct (blockers h) as [|b bs] eqn:E; [done |].
  unfold exec. rewrite (queueTask_blocked h b bs) by done. simpl.
  set (h1 := with_consulted _ _).
  destruct (IH h1) as (Hw & Hl & Hq & Hbl & Hn & Hls).
  { subst h1; simpl. by rewrite E. }
  rewrite Hw, Hl, Hq, Hbl, Hn, Hls. subst h1; simpl.
  by rewrite <- app_assoc.
Qed.

(** Without a blocker and with an adapter that has no listener capability,
    a flush attempt runs the whole queue and then the handler. *)
Lemma tryFlush_handlerFree h :
  handlerFree opts -> blockers h = [] ->
  tryFlush opts h =
    onUpdate opts
      (with_queue [] (with_world (commitAll opts (queue h) (world h)) h)).
Proof.
  intros [Hl Hs] Hb. unfold tryFlush. rewrite Hb, Hl. unfold bind.
  by rewrite flushLoop_silent.
Qed.

(** With an adapter that has a listener capability the flush is the loop
    alone: no notification is synthesized after it. *)
Lemma tryFlush_native h subscribe :
  listener opts = Some subscribe -> blockers h = [] ->
  exec (tryFlush opts) h = exec (flushLoop opts (List.length (queue h))) h
  /\ returns (tryFlush opts) h
     = returns (flushLoop opts (List.length (queue h))) h.
Proof.
  intros Hl Hb. unfold exec, returns, tryFlush. rewrite Hb, Hl. unfold bind.
  by destruct (flushLoop _ _ h) as [[[]|] h1].
Qed.

(** A flush attempt is first-in first-out whatever the adapter does. *)
Lemma tryFlush_fifo h :
  let h' := exec (tryFlush opts) h in
  exists ran,
    ran ++ queue h' = queue h
    /\ world h' = commitAll opts ran (world h)
    /\ blockers h' = blockers h
    /\ (blockers h <> [] -> ran = [])
    /\ (blockers h = [] -> returns (tryFlush opts) h = true ->
        queue h' = []).
Proof.
  unfold exec, returns, tryFlush.
  destruct (blockers h) as [|b bs] eqn:Eb.
  - destruct (flushLoop_fifo (List.length (queue h)) h)
      as (ran & Hran & Hw & Hc & Hret).
    unfold exec, returns in *. unfold bind.
    destruct (flushLoop opts _ h) as [[[]|] h1]; simpl in *.
    + pose proof (onUpdate_frame h1) as (Hw1 & Hq1 & Hc1).
      unfold exec in *.
      assert (world (match listener opts with
                     | Some _ => ret tt | None => onUpdate opts end h1).2
              = world h1
              /\ queue (match listener opts with
                        | Some _ => ret tt | None => onUpdate opts end h1).2
                 = queue h1
              /\ blockers (match listener opts with
                           | Some _ => ret tt | None => onUpdate opts end h1).2
                 = blockers h1) as (Hw2 & Hq2 & Hb2).
      { destruct (listener opts); simpl; [done |].
        destruct Hc1 as (_ & _ & ? & _). done. }
      exists ran. rewrite Hw2, Hq2, Hb2.
      destruct Hc as (_ & _ & Hbl & _). rewrite Hbl, Eb.
      split; [done | split; [done | split; [done | split; [done |]]]].
      intros _ _. by apply Hret.
    + exists ran. destruct Hc as (_ & _ & Hbl & _). rewrite Hbl, Eb.
      by split; [| split; [| split; [| split]]].
  - exists []. simpl. rewrite Eb.
    by split; [| split; [| split; [| split]]].
Qed.

(** First-in first-out for any sequence of navigation calls: the closures
    run so far, committed in order, followed by the closures still queued,
    are the closures that were queued at the start followed by those
    issued. *)
Lemma issue_fifo ts h :
  let h' := issue opts ts h in
  exists ran,
    ran ++ queue h' = queue h ++ ts
    /\ world h' = commitAll opts ran (world h)
    /\ blockers h' = blockers h.
Proof.
  revert h; induction ts as [|t ts IH]; intros h; simpl.
  { exists []. by rewrite app_nil_r. }
  set (h1 := exec (queueTask opts t) h).
  destruct (IH h1) as (ran' & Hran' & Hw' & Hb').
  assert (exists ran, ran ++ queue h1 = queue h ++ [t]
                      /\ world h1 = commitAll opts ran (world h)
                      /\ blockers h1 = blockers h) as (ran & Hran & Hw & Hb).
  { subst h1. unfold exec, queueTask, bind, modify.
    set (h0 := with_queue (queue h ++ [t]) h).
    destruct (tryFlush_fifo h0) as (ran & ? & ? & ? & _).
    exists ran. done. }
  exists (ran ++ ran'). rewrite Hw', Hw, Hb', Hb, commitAll_app.
  split; [| done].
  rewrite <- app_assoc, Hran', app_assoc, Hran, <- app_assoc. done.
Qed.

End CoreFacts.

(** ** Blocking, cancellation and ordering *)

Section Blocking.

Context {St W : Type}.
Variable opts : Opts St W.
Implicit Types (h : History St W) (t : Task St) (ts : list (Task St)).

(** A flush of a one-element queue with no blocker commits the closure. *)
Lemma tryFlush_single h t :
  blockers h = [] -> queue h = [t] ->
  let h' := exec (tryFlush opts) h in
  world h' = commit opts t (world h) /\ queue h' = []
  /\ blockers h' = [].
Proof.
  intros Hb Hq. destruct h as [w l u ls bs q bu nt cs]; simpl in *.
  subst bs q. unfold exec, tryFlush; simpl. unfold bind. simpl.
  match goal with |- context [runTask opts t ?x] => set (h0 := x) end.
  pose proof (runTask_frame opts t h0) as (Hw & Hq' & Hc).
  unfold exec in *.
  destruct (runTask opts t h0) as [[[]|] h1]; simpl in *.
  - destruct Hc as (_ & _ & Hbl & _). simpl in Hbl.
    destruct (listener opts); simpl; [by rewrite Hbl |].
    pose proof (onUpdate_frame opts h1) as (Hw1 & Hq1 & _ & _ & Hb1 & _).
    unfold exec in *. by rewrite Hw1, Hq1, Hb1, Hbl.
  - destruct Hc as (_ & _ & Hbl & _). simpl in Hbl. by rewrite Hbl.
Qed.

(** C1 (amended): with exactly one blocker installed and nothing queued,
    [push(A)] only queues the closure and consults the blocker: the adapter
    and [location] are unchanged, and stay so under any further navigation
    calls.  Calling [retry] while the blocker is still installed changes
    nothing but consults the blocker again.  Once
    the blocker has been removed, [retry] commits [pushState(A)] and empties
    the queue, and for an adapter without a listener capability
    [location] is then the adapter's location. *)
Theorem C1_push_waits_for_unblock_and_retry h b path st :
  blockers h = [b] -> queue h = [] ->
  let task := PushTask path st in
  let h1 := exec (push opts path st) h in
  let h2 := exec (retry opts) h1 in
  let h3 := exec (retry opts) (exec (unblock b) h1) in
  (world h1 = world h /\ location h1 = location h /\ queue h1 = [task]
   /\ consulted h1 = consulted h ++ [b])
  /\ (forall ts,
      world (issue opts ts h1) = world h
      /\ location (issue opts ts h1) = location h)
  /\ (world h2 = world h /\ location h2 = location h /\ queue h2 = [task]
      /\ consulted h2 = consulted h ++ [b; b])
  /\ (world h3 = commit opts task (world h) /\ queue h3 = []
      /\ (handlerFree opts ->
          forall l, getLocation opts (commit opts task (world h)) = Some l ->
          location h3 = l)).
Proof.
  intros Hb Hq task h1 h2 h3.
  assert (h1 = with_consulted (consulted h ++ [b])
                 (with_queue [task] h)) as E1.
  { subst h1. unfold exec, push. rewrite (queueTask_blocked _ h b []) by done.
    by rewrite Hq. }
  assert (h2 = with_consulted (consulted h ++ [b; b])
                 (with_queue [task] h)) as E2.
  { subst h2. unfold exec, retry.
    rewrite (tryFlush_blocked _ h1 b []) by (by rewrite E1).
    rewrite E1; simpl. by rewrite <- app_assoc. }
  split; [by rewrite E1 |].
  split.
  { intros ts. destruct (issue_blocked opts ts h1) as (Hw & Hl & _).
    { rewrite E1; simpl. by rewrite Hb. }
    rewrite Hw, Hl. by rewrite E1. }
  split; [by rewrite E2 |].
  set (h1' := exec (unblock b) h1) in *.
  assert (h1' = with_beforeUnload false
                  (with_blockers [] h1)) as E1'.
  { subst h1'. unfold exec, unblock. rewrite E1; simpl. rewrite Hb.
    assert (filter (fun b0 : BlockerFn => b0 <> b) [b] = []) as ->; [| done].
    rewrite filter_cons_False; [done | by intros ?]. }
  assert (blockers h1' = [] /\ queue h1' = [task] /\ world h1' = world h)
    as (Hb' & Hq' & Hw') by (by rewrite E1', E1).
  destruct (tryFlush_single h1' task Hb' Hq') as (Hw3 & Hq3 & _).
  fold h3 in Hw3, Hq3. rewrite Hw' in Hw3.
  split; [done | split; [done |]].
  intros Hfree l Hl. subst h3. unfold exec, retry.
  rewrite tryFlush_handlerFree by done.
  rewrite Hq', Hw'. simpl. fold (commit opts task (world h)).
  by rewrite (onUpdate_Some _ _ l).
Qed.

(** C4: with a blocker installed and [push(A)] issued, [cancel] empties the
    blocker list and removes the unload guard; the adapter and [location]
    are as before the push, the queue still holds exactly what it held
    after the push (the closure of [push(A)] was neither run nor dropped),
    and a second [cancel] changes nothing. *)
Theorem C4_cancel_clears_blockers_only h path st :
  blockers h <> [] ->
  let h1 := exec (push opts path st) h in
  let h2 := exec cancel h1 in
  returns cancel h1 = true
  /\ blockers h2 = [] /\ beforeUnload h2 = false
  /\ location h2 = location h /\ world h2 = world h
  /\ queue h1 = queue h ++ [PushTask path st] /\ queue h2 = queue h1
  /\ notified h2 = notified h
  /\ exec cancel h2 = h2.
Proof.
  intros Hb h1 h2. destruct (blockers h) as [|b bs] eqn:E; [done |].
  assert (h1 = with_consulted (consulted h ++ [b])
                 (with_queue (queue h ++ [PushTask path st]) h)) as E1.
  { subst h1. unfold exec, push. by rewrite (queueTask_blocked _ h b bs). }
  subst h2. rewrite E1. by repeat split.
Qed.

(** C6: navigation closures run first-in first-out.  For any sequence of
    calls, what has run (in order) followed by what is still queued is what
    was queued followed by what was issued.  With no blocker, [push(A)] then
    [push(B)] commit A's adapter call and then B's on top of it.  With a
    blocker installed, calls are only queued, in order; [retry] runs
    nothing while a blocker remains, and [retry] on an empty blocker list
    runs the whole queue in order. *)
Theorem C6_queue_is_fifo h hb pathA stA pathB stB ts :
  blockers h = [] -> blockers hb <> [] ->
  returns (push opts pathA stA) h = true ->
  returns (push opts pathB stB) (exec (push opts pathA stA) h) = true ->
  let a := PushTask pathA stA in
  let b := PushTask pathB stB in
  let hA := exec (push opts pathA stA) h in
  let hAB := exec (push opts pathB stB) hA in
  let hq := issue opts ts hb in
  (forall h0 ts0, exists ran,
      ran ++ queue (issue opts ts0 h0) = queue h0 ++ ts0
      /\ world (issue opts ts0 h0) = commitAll opts ran (world h0))
  /\ (world hA = commit opts a (commitAll opts (queue h) (world h))
      /\ world hAB = commit opts b (world hA)
      /\ queue hAB = [])
  /\ (world hq = world hb /\ queue hq = queue hb ++ ts
      /\ world (exec (retry opts) hq) = world hb
      /\ queue (exec (retry opts) hq) = queue hb ++ ts)
  /\ (forall h', blockers h' = [] -> queue h' = queue hq ->
      world h' = world hq -> returns (retry opts) h' = true ->
      world (exec (retry opts) h') = commitAll opts (queue hb ++ ts) (world hb)
      /\ queue (exec (retry opts) h') = []).
Proof.
  intros Hb Hbb RA RB a b hA hAB hq.
  assert (forall h0 t, blockers h0 = [] ->
            returns (queueTask opts t) h0 = true ->
            let h' := exec (queueTask opts t) h0 in
            world h' = commit opts t (commitAll opts (queue h0) (world h0))
            /\ queue h' = [] /\ blockers h' = []) as Hstep.
  { intros h0 t Hb0 R0. unfold exec, returns, queueTask, bind, modify in *.
    simpl in *. set (h0' := with_queue (queue h0 ++ [t]) h0) in *.
    destruct (tryFlush_fifo opts h0') as (ran & Hran & Hw & Hbl & _ & Hret).
    unfold exec, returns in *.
    rewrite Hret in Hran by done. rewrite app_nil_r in Hran. subst ran.
    rewrite Hret by done. rewrite Hw, Hbl. subst h0'; simpl.
    by rewrite commitAll_app. }
  split.
  { intros h0 ts0. destruct (issue_fifo opts ts0 h0) as (ran & ? & ? & _).
    by exists ran. }
  split.
  { subst hA hAB. unfold push in *.
    destruct (Hstep h a Hb RA) as (HwA & HqA & HbA).
    destruct (Hstep _ b HbA RB) as (HwB & HqB & _).
    rewrite HqA in HwB. done. }
  destruct (issue_blocked opts ts hb Hbb) as (Hw & _ & Hq & Hbl & _).
  fold hq in Hw, Hq, Hbl.
  split.
  { split; [done | split; [done |]].
    destruct (blockers hq) as [|b0 bs0] eqn:E; [by rewrite Hbl in Hbb |].
    unfold exec, retry. rewrite (tryFlush_blocked _ hq b0 bs0) by done.
    done. }
  intros h' Hb' Hq' Hw' R'.
  destruct (tryFlush_fifo opts h') as (ran & Hran & Hwr & _ & _ & Hret).
  unfold retry. rewrite Hret in Hran by done. rewrite app_nil_r in Hran.
  subst ran. rewrite Hret by done. by rewrite Hwr, Hq', Hw', Hq, Hw.
Qed.

End Blocking.

(** ** Notification: the synthetic and the native path *)

Section Notification.

Context {St W : Type}.
Variable opts : Opts St W.
Implicit Types (h : History St W) (t : Task St) (ts : list (Task St)).

(** Calls to all listeners, [n] times over. *)
Lemma times_onUpdate_total n h :
  (forall w, is_Some (getLocation opts w)) ->
  exists l,
    times n (onUpdate opts) h =
      (Normal tt,
       mkHistory (world h) l (unsub h) (listeners h) (blockers h) (queue h)
         (beforeUnload h)
         (notified h ++ mjoin (replicate n (listeners h))) (consulted h))
    /\ (n = O -> l = location h)
    /\ (n <> O -> getLocation opts (world h) = Some l).
Proof.
  intros Htotal. revert h; induction n as [|n IH]; intros h; simpl.
  { exists (location h). rewrite app_nil_r. by destruct h. }
  destruct (Htotal (world h)) as [l Hl]. unfold bind.
  rewrite (onUpdate_Some _ _ l Hl).
  destruct (IH (mkHistory (world h) l (unsub h) (listeners h) (blockers h)
                  (queue h) (beforeUnload h) (notified h ++ listeners h)
                  (consulted h))) as (l' & -> & H0 & Hn).
  simpl in *. exists l'. rewrite <- app_assoc.
  split; [done | split; [done |]]. intros _.
  destruct n as [|n]; [by rewrite H0 | by apply Hn].
Qed.

(** With a [getLocation] that never throws, the loop runs the whole queue,
    and the listeners are called once per handler call of the adapter, and
    no more. *)
Lemma flushLoop_total fuel h :
  (forall w, is_Some (getLocation opts w)) ->
  (List.length (queue h) <= fuel)%nat ->
  let h' := exec (flushLoop opts fuel) h in
  returns (flushLoop opts fuel) h = true
  /\ queue h' = []
  /\ world h' = commitAll opts (queue h) (world h)
  /\ listeners h' = listeners h
  /\ notified h' =
       notified h
       ++ mjoin (replicate (handlerCalls opts (queue h) (world h))
                   (listeners h))
  /\ (handlerCalls opts (queue h) (world h) = O -> location h' = location h).
Proof.
  intros Htotal. revert h; induction fuel as [|fuel IH]; intros h Hl.
  { destruct h as [w l u ls bs [|t q] bu nt cs]; simpl in *; [| lia].
    unfold exec, returns; simpl. by rewrite app_nil_r. }
  destruct h as [w l u ls bs [|t q] bu nt cs]; simpl in *.
  { unfold exec, returns; simpl. by rewrite app_nil_r. }
  unfold exec, returns; simpl. unfold bind, runTask, commit; simpl.
  destruct (primitive opts t w) as [w1 n] eqn:Ep; simpl.
  match goal with |- context [times n (onUpdate opts) ?x] =>
    destruct (times_onUpdate_total n x Htotal) as (l1 & -> & Hl0 & _)
  end.
  simpl in *.
  match goal with |- context [flushLoop opts fuel ?x] =>
    specialize (IH x)
  end.
  simpl in IH. destruct IH as (Hr & Hq & Hw & Hls & Hn & Hloc); [lia |].
  unfold exec, returns in *.
  destruct (flushLoop opts fuel _) as [[[]|] h1]; simpl in *; [| done].
  rewrite Hq, Hw, Hls, Hn.
  split; [done | split; [done | split; [done | split; [done | split]]]].
  - by rewrite <- app_assoc, replicate_add, <- join_app.
  - intros H0. rewrite Hloc by lia. apply Hl0. lia.
Qed.

End Notification.

Section NotificationClaims.

Context {St WF WN : Type}.
Variable optsF : Opts St WF.
Variable optsN : Opts St WN.

(** C7: after the queue has drained with no blocker installed, a core whose
    adapter has no listener capability stores the adapter's location and
    calls every registered listener exactly once; a core whose adapter has
    a listener capability adds no call of its own: the listeners are called
    once per handler call the adapter made while the closures ran, so not at
    all when the adapter made none. *)
Theorem C7_flush_notifies_once_per_change
    (hf : History St WF) (hn : History St WN) l :
  handlerFree optsF -> blockers hf = [] -> NoDup (listeners hf) ->
  getLocation optsF (commitAll optsF (queue hf) (world hf)) = Some l ->
  is_Some (listener optsN) -> blockers hn = [] ->
  (forall w, is_Some (getLocation optsN w)) ->
  let hf' := exec (tryFlush optsF) hf in
  let hn' := exec (tryFlush optsN) hn in
  let native := handlerCalls optsN (queue hn) (world hn) in
  (returns (tryFlush optsF) hf = true /\ queue hf' = []
   /\ location hf' = l /\ getLocation optsF (world hf') = Some l
   /\ exists calls,
        notified hf' = notified hf ++ calls /\ NoDup calls
        /\ forall cb, cb ∈ calls <-> cb ∈ listeners hf)
  /\ (returns (tryFlush optsN) hn = true /\ queue hn' = []
      /\ notified hn' =
           notified hn ++ mjoin (replicate native (listeners hn))
      /\ (native = O ->
          notified hn' = notified hn /\ location hn' = location hn)
      /\ (native = 1%nat -> notified hn' = notified hn ++ listeners hn)).
Proof.
  intros Hfree Hbf Hnd Hl [subscribe Hsub] Hbn Htotal hf' hn' native.
  split.
  - subst hf'. unfold exec, returns.
    rewrite tryFlush_handlerFree by done.
    rewrite (onUpdate_Some _ _ l) by done. simpl.
    split; [done | split; [done | split; [done | split; [done |]]]].
    exists (listeners hf). done.
  - destruct (tryFlush_native optsN hn subscribe Hsub Hbn) as [He Hr].
    subst hn'. rewrite He, Hr.
    destruct (flushLoop_total optsN (List.length (queue hn)) hn Htotal)
      as (R & Hq & _ & _ & Hn & Hloc); [done |].
    fold native in Hn, Hloc.
    split; [done | split; [done | split; [done | split]]].
    + intros H0. rewrite Hn, H0. simpl. rewrite app_nil_r. by split; [| apply Hloc].
    + intros H1. rewrite Hn, H1. simpl. by rewrite app_nil_r.
Qed.

(** C5 (amended): with no blocker installed, a navigation call on a core
    whose adapter has no listener capability leaves [location] equal to the
    adapter's location after the whole queue has been committed.  On a core
    whose adapter has a listener capability the closure is committed too,
    but [location] is recomputed only inside the handler: it equals the
    adapter's location if the adapter called the handler while the closure
    ran, and keeps its previous value if the adapter made no handler
    call. *)
Theorem C5_location_recomputed_by_handler
    (hf : History St WF) (hn : History St WN) (t tn : Task St) l :
  handlerFree optsF -> blockers hf = [] ->
  getLocation optsF (commitAll optsF (queue hf ++ [t]) (world hf)) = Some l ->
  is_Some (listener optsN) -> blockers hn = [] -> queue hn = [] ->
  (forall w, is_Some (getLocation optsN w)) ->
  let hf' := exec (queueTask optsF t) hf in
  let hn' := exec (queueTask optsN tn) hn in
  (world hf' = commitAll optsF (queue hf ++ [t]) (world hf)
   /\ queue hf' = [] /\ location hf' = l
   /\ getLocation optsF (world hf') = Some (location hf'))
  /\ (world hn' = commit optsN tn (world hn) /\ queue hn' = []
      /\ (snd (primitive optsN tn (world hn)) <> O ->
          getLocation optsN (world hn') = Some (location hn'))
      /\ (snd (primitive optsN tn (world hn)) = O ->
          location hn' = location hn)).
Proof.
  intros Hfree Hbf Hl [subscribe Hsub] Hbn Hqn Htotal hf' hn'.
  split.
  - subst hf'. unfold exec, queueTask, bind, modify.
    rewrite tryFlush_handlerFree by done. simpl.
    by rewrite (onUpdate_Some _ _ l).
  - subst hn'. destruct hn as [w lo u ls bs q bu nt cs]; simpl in *.
    subst bs q. unfold exec, queueTask, bind, modify, tryFlush; simpl.
    rewrite Hsub. unfold bind, runTask, commit; simpl.
    destruct (primitive optsN tn w) as [w1 n]; simpl.
    match goal with |- context [times n (onUpdate optsN) ?x] =>
      destruct (times_onUpdate_total optsN n x Htotal) as (l1 & -> & H0 & Hn)
    end.
    simpl in *. split; [done | split; [done | split]].
    + intros Hne. by apply Hn.
    + intros He. by apply H0.
Qed.

End NotificationClaims.

(** ** JavaScript arrays *)

Module JsArrayFacts.
Import JsArray.

Lemma get_of_list l i :
  get (of_list l) i = if decide (0 <= i) then l !! Z.to_nat i else None.
Proof.
  unfold get, of_list; simpl. rewrite lookup_map_seqZ.
  case_decide.
  - rewrite option_guard_True by done. by rewrite Z.sub_0_r.
  - by rewrite option_guard_False.
Qed.

Lemma dense_of_list l : dense (of_list l).
Proof.
  intros i [H0 Hl]. rewrite get_of_list. rewrite decide_True by done.
  apply lookup_lt_is_Some. simpl in Hl. lia.
Qed.

Lemma get_push_new a v : get (push a v) (length a) = Some v.
Proof. unfold get, push; simpl. apply lookup_insert_eq. Qed.

Lemma get_push_old a v i : i <> length a -> get (push a v) i = get a i.
Proof. intros H. unfold get, push; simpl. by apply lookup_insert_ne. Qed.

Lemma length_push a v : length (push a v) = length a + 1.
Proof. done. Qed.

Lemma dense_push a v : 0 <= length a -> dense a -> dense (push a v).
Proof.
  intros H0 Hd i Hi. rewrite length_push in Hi.
  destruct (decide (i = length a)) as [->|Hne].
  - rewrite get_push_new. by eexists.
  - rewrite get_push_old by done. apply Hd. lia.
Qed.

Lemma get_set_same a i v : get (set a i v) i = Some v.
Proof. unfold get, set; simpl. apply lookup_insert_eq. Qed.

Lemma get_set_other a i j v : i <> j -> get (set a i v) j = get a j.
Proof. intros H. unfold get, set; simpl. by apply lookup_insert_ne. Qed.

Lemma length_set_inside a i v : i < length a -> length (set a i v) = length a.
Proof.
  intros H. unfold set; simpl. destruct (Z.leb_spec (length a) i); [lia | done].
Qed.

Lemma dense_set a i v : i < length a -> dense a -> dense (set a i v).
Proof.
  intros Hi Hd j Hj. rewrite length_set_inside in Hj by done.
  destruct (decide (i = j)) as [->|Hne].
  - rewrite get_set_same. by eexists.
  - rewrite get_set_other by done. by apply Hd.
Qed.

End JsArrayFacts.

(** ** The in-memory adapter *)

Section MemoryFacts.

Context {St : Type}.
Implicit Types (w : MemoryWorld St) (h : History St (MemoryWorld St)).

Import JsArrayFacts.

Lemma memory_handlerFree : handlerFree (@memoryOpts St).
Proof. split; [done |]. by intros []. Qed.

Lemma memoryWorld_wellFormed l i :
  0 <= i < Z.of_nat (List.length l) ->
  memoryWellFormed (@memoryWorld St l (Some i)).
Proof. intros H. split; [apply dense_of_list | done]. Qed.

Lemma memoryGetLocation_wellFormed w :
  memoryWellFormed w -> is_Some (memoryGetLocation w).
Proof.
  intros [Hd Hc]. unfold memoryGetLocation.
  destruct (Hd (index w) Hc) as [e ->]. by eexists.
Qed.

(** [forward] is clamped at the last entry. *)
Lemma memoryForward_wellFormed w :
  memoryWellFormed w -> memoryWellFormed (memoryForward w).1.
Proof.
  intros [Hd Hc]. split; [done |]. unfold cursorValid in *; simpl. lia.
Qed.

Lemma memoryForward_last w :
  index w = JsArray.length (entries w) - 1 -> (memoryForward w).1 = w.
Proof.
  intros H. destruct w as [e i s d g]; simpl in *. subst i.
  unfold memoryForward; simpl. f_equal. lia.
Qed.

Lemma memoryForward_inside w :
  index w < JsArray.length (entries w) - 1 ->
  index (memoryForward w).1 = index w + 1.
Proof. intros H. simpl. lia. Qed.

(** [back] is not clamped: it keeps the cursor valid exactly when the
    cursor is not on the first entry. *)
Lemma memoryBack_index w : index (memoryBack w).1 = index w - 1.
Proof. done. Qed.

Lemma memoryBack_wellFormed w :
  memoryWellFormed w -> 0 < index w -> memoryWellFormed (memoryBack w).1.
Proof.
  intros [Hd Hc] H. split; [done |]. unfold cursorValid in *; simpl. lia.
Qed.

Lemma memoryBack_first w :
  index w = 0 -> ~ cursorValid (memoryBack w).1.
Proof. intros H. unfold cursorValid; simpl. lia. Qed.

Lemma memoryPushState_wellFormed path st w :
  memoryWellFormed w -> memoryWellFormed (memoryPushState path st w).1.
Proof.
  intros [Hd Hc]. unfold cursorValid in *. split; simpl.
  - apply dense_push; [lia | done].
  - unfold cursorValid; simpl. lia.
Qed.

Lemma memoryReplaceState_wellFormed path st w :
  memoryWellFormed w -> memoryWellFormed (memoryReplaceState path st w).1.
Proof.
  intros [Hd Hc]. unfold cursorValid in *. split; simpl.
  - apply dense_set; [lia | done].
  - unfold cursorValid; cbn [fst entries index].
    rewrite length_set_inside; lia.
Qed.

(** A navigation call on an in-memory history with no blocker installed
    commits the whole queue and then recomputes the location, throwing when
    the cursor designates no entry. *)
Lemma memory_queueTask h t :
  blockers h = [] ->
  let w' := commitAll memoryOpts (queue h ++ [t]) (world h) in
  queueTask memoryOpts t h =
    onUpdate memoryOpts (with_queue [] (with_world w' h)).
Proof.
  intros Hb. unfold queueTask, bind, modify.
  by rewrite tryFlush_handlerFree by (done || apply memory_handlerFree).
Qed.

(** [back] on a history whose cursor is on the first entry throws and leaves
    the cursor at [-1]; elsewhere it returns with the previous entry. *)
Lemma memory_back_first_throws h :
  blockers h = [] -> queue h = [] -> index (world h) = 0 ->
  JsArray.get (entries (world h)) (-1) = None ->
  let h' := exec (history_back memoryOpts) h in
  returns (history_back memoryOpts) h = false
  /\ index (world h') = -1 /\ location h' = location h.
Proof.
  intros Hb Hq Hi Hnone. unfold exec, returns, history_back.
  rewrite memory_queueTask by done. rewrite Hq. simpl.
  rewrite onUpdate_None.
  - simpl. unfold commitAll, commit; simpl. split; [done | split; [lia | done]].
  - simpl. unfold commitAll, commit, memoryGetLocation; simpl.
    rewrite Hi. change (0 - 1) with (-1). by rewrite Hnone.
Qed.

Lemma memory_back_inside_returns h :
  blockers h = [] -> queue h = [] -> memoryWellFormed (world h) ->
  0 < index (world h) ->
  let h' := exec (history_back memoryOpts) h in
  returns (history_back memoryOpts) h = true
  /\ index (world h') = index (world h) - 1
  /\ memoryWellFormed (world h')
  /\ memoryGetLocation (world h') = Some (location h').
Proof.
  intros Hb Hq Hwf Hi. unfold exec, returns, history_back.
  rewrite memory_queueTask by done. rewrite Hq. simpl.
  pose proof (memoryBack_wellFormed _ Hwf Hi) as Hwf'.
  destruct (memoryGetLocation_wellFormed _ Hwf') as [l Hl].
  rewrite (onUpdate_Some _ _ l) by done. simpl.
  unfold commitAll, commit in *; simpl in *. by rewrite Hl.
Qed.

End MemoryFacts.

Section MemoryClaims.

Context {St : Type}.
Implicit Types (w : MemoryWorld St) (h : History St (MemoryWorld St)).

Import JsArrayFacts.

(** C9: the in-memory [pushState] appends the path after the last entry
    (no entry is removed or changed) and moves the cursor one step from
    where it was.  The location after the push is parsed from the pushed
    path when the cursor was on the last entry, and otherwise from the
    entry that already followed the cursor, the cursor then not being on
    the new entry.  A [push] on a history with nothing queued and no
    blocker commits exactly this and stores that location. *)
Theorem C9_memory_push_appends_and_steps_cursor w path st :
  let last := JsArray.length (entries w) in
  let w' := commit memoryOpts (PushTask path st) w in
  let parse e := parseLocation e (Keyed st (draws w)) in
  (JsArray.length (entries w') = last + 1
   /\ JsArray.get (entries w') last = Some path
   /\ (forall i, i <> last ->
       JsArray.get (entries w') i = JsArray.get (entries w) i)
   /\ index w' = index w + 1)
  /\ (index w = last - 1 -> memoryGetLocation w' = Some (parse path))
  /\ (index w < last - 1 ->
      index w' <> last
      /\ memoryGetLocation w' =
           parse <$> JsArray.get (entries w) (index w + 1))
  /\ (forall h, world h = w -> blockers h = [] -> queue h = [] ->
      let h' := exec (push memoryOpts path st) h in
      world h' = w'
      /\ forall l, memoryGetLocation w' = Some l -> location h' = l).
Proof.
  intros last w' parse. subst w'. unfold commit; simpl.
  split; [| split; [| split]].
  - split; [done | split; [apply get_push_new | split; [| done]]].
    intros i Hi. by apply get_push_old.
  - intros Hi. unfold memoryGetLocation; simpl.
    replace (index w + 1) with (JsArray.length (entries w)) by (subst last; lia).
    by rewrite get_push_new.
  - intros Hi. split; [subst last; lia |].
    unfold memoryGetLocation; simpl.
    rewrite get_push_old by (subst last; lia).
    by destruct (JsArray.get (entries w) (index w + 1)).
  - intros h Hw Hb Hq. unfold exec, push.
    rewrite memory_queueTask by done. rewrite Hq, Hw. simpl.
    unfold commitAll, commit; simpl.
    split.
    + by pose proof (onUpdate_frame memoryOpts
                       (with_queue [] (with_world (memoryPushState path st w).1 h)))
        as (? & _).
    + intros l Hl. by rewrite (onUpdate_Some _ _ l).
Qed.

(** C10: the in-memory [go] only calls the platform's [window.history.go]:
    entries, cursor, state and the adapter's location are as before.  On a
    history with nothing queued whose [location] is the adapter's location,
    [go(n)] returns and leaves entries, cursor and [location] unchanged; the
    platform call is made when no blocker is installed and queued
    otherwise. *)
Theorem C10_memory_go_only_calls_platform h n :
  queue h = [] -> memoryGetLocation (world h) = Some (location h) ->
  let w' := commit memoryOpts (GoTask n) (world h) in
  let h' := exec (history_go memoryOpts n) h in
  (entries w' = entries (world h) /\ index w' = index (world h)
   /\ currentState w' = currentState (world h)
   /\ platformGo w' = platformGo (world h) ++ [n]
   /\ memoryGetLocation w' = memoryGetLocation (world h))
  /\ (returns (history_go memoryOpts n) h = true
      /\ entries (world h') = entries (world h)
      /\ index (world h') = index (world h)
      /\ location h' = location h)
  /\ (blockers h = [] -> world h' = w' /\ queue h' = [])
  /\ (blockers h <> [] -> world h' = world h /\ queue h' = [GoTask n]).
Proof.
  intros Hq Hl w' h'. split; [done |].
  destruct (blockers h) as [|b bs] eqn:Hb.
  - assert (queueTask memoryOpts (GoTask n) h =
              (Normal tt,
               mkHistory w' (location h) (unsub h) (listeners h) (blockers h)
                 [] (beforeUnload h) (notified h ++ listeners h)
                 (consulted h))) as E.
    { rewrite memory_queueTask by done. rewrite Hq. simpl.
      by rewrite (onUpdate_Some _ _ (location h)). }
    subst h'. unfold exec, returns, history_go. rewrite E. simpl.
    by split; [| split].
  - subst h'. unfold exec, returns, history_go.
    rewrite (queueTask_blocked _ h b bs) by done. simpl. rewrite Hq.
    by split; [| split].
Qed.

End MemoryClaims.

(** ** The listener set and the platform subscription *)

Section Subscription.

Context {St W : Type}.
Variable opts : Opts St W.
Implicit Types (h : History St W) (cb : Callback) (cbs : list Callback).

Lemma set_add_NoDup cb cbs : NoDup cbs -> NoDup (set_add cb cbs).
Proof.
  intros H. unfold set_add. case_decide; [done |].
  apply NoDup_app. split; [done | split].
  - intros x Hx ->%list_elem_of_singleton. done.
  - apply NoDup_singleton.
Qed.

Lemma set_delete_NoDup cb cbs : NoDup cbs -> NoDup (set_delete cb cbs).
Proof. apply NoDup_filter. Qed.

Lemma set_delete_absent cb cbs : cb ∉ cbs -> set_delete cb cbs = cbs.
Proof.
  induction cbs as [|c cbs IH]; [done |].
  intros [Hne Hnin]%not_elem_of_cons. unfold set_delete in *.
  rewrite filter_cons_True by done. by rewrite IH.
Qed.

Lemma set_delete_head cb cbs :
  cb ∉ cbs -> set_delete cb (cb :: cbs) = cbs.
Proof.
  intros H. unfold set_delete. rewrite filter_cons_False by (by intros ?).
  by apply set_delete_absent.
Qed.

(** The first [listen] installs the subscription; a later one does not. *)
Lemma listen_first h cb subscribe :
  listener opts = Some subscribe -> listeners h = [] ->
  exec (listen opts cb) h =
    with_listeners [cb]
      (with_unsub (subscribe (world h)).2
         (with_world (subscribe (world h)).1 h)).
Proof.
  intros Hs Hl. unfold exec, listen, modify; simpl. rewrite Hl, Hs.
  destruct (subscribe (world h)); simpl. by rewrite Hl.
Qed.

Lemma listen_more h cb :
  listeners h <> [] ->
  exec (listen opts cb) h = with_listeners (set_add cb (listeners h)) h.
Proof.
  intros Hl. unfold exec, listen, modify; simpl.
  destruct (listeners h) eqn:E; [done |]. by rewrite E.
Qed.

Lemma listenAll_more cbs h :
  listeners h <> [] ->
  let h' := after (listenAll opts cbs) h in
  world h' = world h /\ unsub h' = unsub h
  /\ listeners h' = fold_left (fun l cb => set_add cb l) cbs (listeners h).
Proof.
  revert h; induction cbs as [|cb cbs IH]; intros h Hl; simpl; [done |].
  rewrite listen_more by done.
  destruct (IH (with_listeners (set_add cb (listeners h)) h))
    as (Hw & Hu & Hls).
  { simpl. unfold set_add. case_decide; [done |]. by destruct (listeners h). }
  by rewrite Hw, Hu, Hls.
Qed.

Lemma fold_set_add_fresh cbs l :
  NoDup (l ++ cbs) ->
  fold_left (fun l cb => set_add cb l) cbs l = l ++ cbs.
Proof.
  revert l; induction cbs as [|cb cbs IH]; intros l Hnd; simpl.
  { by rewrite app_nil_r. }
  assert (set_add cb l = l ++ [cb]) as ->.
  { unfold set_add. apply NoDup_app in Hnd as (_ & Hd & _).
    rewrite decide_False; [done |]. intros Hin. apply (Hd cb Hin). left. }
  rewrite IH; rewrite <- app_assoc; done.
Qed.

(** Registering distinct callbacks on an empty listener set calls the
    adapter's [listener] once, at the first of them. *)
Lemma listenAll_installs_once cb cbs h subscribe :
  listener opts = Some subscribe -> listeners h = [] -> NoDup (cb :: cbs) ->
  let h' := after (listenAll opts (cb :: cbs)) h in
  world h' = (subscribe (world h)).1 /\ unsub h' = (subscribe (world h)).2
  /\ listeners h' = cb :: cbs.
Proof.
  intros Hs Hl Hnd. simpl. rewrite (listen_first h cb subscribe) by done.
  match goal with |- context [after _ ?x] =>
    destruct (listenAll_more cbs x) as (Hw & Hu & Hls); [done |]
  end.
  rewrite Hw, Hu, Hls. simpl. by rewrite (fold_set_add_fresh cbs [cb]).
Qed.

(** Calling the unsubscribe function of each registered callback once, in
    any order, calls the teardown once: when the last one is removed. *)
Lemma unlistenAll_tears_down_once cbs h :
  cbs <> [] -> NoDup cbs -> listeners h ≡ₚ cbs ->
  let h' := after (unlistenAll cbs) h in
  world h' = unsub h (world h) /\ unsub h' = unsub h /\ listeners h' = [].
Proof.
  revert h; induction cbs as [|cb cbs IH]; intros h Hne Hnd Hp; [done |].
  apply NoDup_cons in Hnd as [Hnin Hnd]. simpl.
  assert (set_delete cb (listeners h) ≡ₚ cbs) as Hp'.
  { unfold set_delete. rewrite Hp. fold (set_delete cb (cb :: cbs)).
    by rewrite set_delete_head. }
  set (h1 := exec (unlisten cb) h).
  assert (listeners h1 = set_delete cb (listeners h)
          /\ unsub h1 = unsub h
          /\ world h1 = match set_delete cb (listeners h) with
                        | [] => unsub h (world h)
                        | _ :: _ => world h
                        end) as (Hl1 & Hu1 & Hw1).
  { subst h1. unfold exec, unlisten, modify; simpl.
    by destruct (set_delete cb (listeners h)). }
  destruct cbs as [|c cbs].
  - apply Permutation_nil_r in Hp'. rewrite Hp' in *. simpl. done.
  - destruct (IH h1) as (Hw & Hu & Hls); [done | done | by rewrite Hl1 |].
    rewrite Hw, Hu, Hls, Hu1, Hw1.
    destruct (set_delete cb (listeners h)); [| done].
    by apply Permutation_nil_cons in Hp'.
Qed.

(** Calling an unsubscribe function when the listener set is already empty
    calls the teardown again. *)
Lemma unlisten_empty_tears_down_again h cb :
  listeners h = [] ->
  let h' := exec (unlisten cb) h in
  world h' = unsub h (world h) /\ listeners h' = [].
Proof. intros Hl. unfold exec, unlisten, modify; simpl. by rewrite Hl. Qed.

(** An unsubscribe function never throws and leaves a duplicate-free
    listener set. *)
Lemma unlisten_returns h cb :
  returns (unlisten cb) h = true
  /\ (NoDup (listeners h) -> NoDup (listeners (exec (unlisten cb) h))).
Proof.
  split; [done |]. intros Hnd. unfold exec, unlisten, modify; simpl.
  pose proof (set_delete_NoDup cb _ Hnd) as Hnd'.
  by destruct (set_delete cb (listeners h)).
Qed.

Lemma listen_NoDup h cb :
  NoDup (listeners h) -> NoDup (listeners (exec (listen opts cb) h)).
Proof.
  intros Hnd. unfold exec, listen, modify; simpl.
  destruct (listeners h) as [|c l] eqn:E; simpl.
  - destruct (listener opts) as [subscribe|]; simpl.
    + destruct (subscribe (world h)); simpl. rewrite E.
      by apply set_add_NoDup.
    + rewrite E. by apply set_add_NoDup.
  - rewrite E. by apply set_add_NoDup.
Qed.

End Subscription.

(** ** The browser adapter: the subscription follows the listener set *)

Section BrowserFacts.

Context {St : Type}.
Variable getHref : Window St -> string.
Variable createHref' : string -> string.
Implicit Types (w : Window St) (h : History St (Window St)).

Local Abbreviation bopts := (browserOpts getHref createHref').

Lemma browser_getLocation_total w : is_Some (getLocation bopts w).
Proof. by eexists. Qed.

Lemma browser_commit_subscription t w :
  wrappers (commit bopts t w) = wrappers w
  /\ bound (commit bopts t w) = bound w.
Proof. by destruct t. Qed.

Lemma browser_commitAll_subscription ts w :
  wrappers (commitAll bopts ts w) = wrappers w
  /\ bound (commitAll bopts ts w) = bound w.
Proof.
  revert w; induction ts as [|t ts IH]; intros w; [done |].
  change (commitAll bopts (t :: ts) w)
    with (commitAll bopts ts (commit bopts t w)).
  destruct (IH (commit bopts t w)) as [-> ->]. apply browser_commit_subscription.
Qed.

(** A flush attempt changes neither the listener set nor the stored
    teardown, and the adapter's world only through the closures it runs. *)
Lemma tryFlush_control {W} (opts : Opts St W) (h : History St W) :
  let h' := exec (tryFlush opts) h in
  exists ran,
    world h' = commitAll opts ran (world h)
    /\ unsub h' = unsub h /\ listeners h' = listeners h.
Proof.
  unfold exec, tryFlush. destruct (blockers h) as [|b bs].
  - destruct (flushLoop_fifo opts (List.length (queue h)) h)
      as (ran & _ & Hw & (Hu & Hl & _) & _).
    unfold exec, bind in *. exists ran.
    destruct (flushLoop opts _ h) as [[[]|] h1]; simpl in *; [| done].
    destruct (listener opts); simpl; [done |].
    pose proof (onUpdate_frame opts h1) as (Hw1 & _ & Hu1 & Hl1 & _).
    unfold exec in *. by rewrite Hw1, Hu1, Hl1.
  - by exists [].
Qed.

Lemma queueTask_control {W} (opts : Opts St W) (h : History St W) t :
  let h' := exec (queueTask opts t) h in
  exists ran,
    world h' = commitAll opts ran (world h)
    /\ unsub h' = unsub h /\ listeners h' = listeners h.
Proof.
  unfold exec, queueTask, bind, modify.
  apply (tryFlush_control opts (with_queue (queue h ++ [t]) h)).
Qed.

(** Calls that leave the listener set and the teardown alone and change the
    world only by running closures keep the invariant. *)
Lemma subscriptionInv_commit h h' ran :
  world h' = commitAll bopts ran (world h) ->
  unsub h' = unsub h -> listeners h' = listeners h ->
  subscriptionInv h -> subscriptionInv h'.
Proof.
  intros Hw Hu Hl [Hnd Hinv]. unfold subscriptionInv, subscribed, unsubscribed in *.
  rewrite Hw, Hu, Hl.
  destruct (browser_commitAll_subscription ran (world h)) as [-> ->].
  done.
Qed.

Lemma subscriptionInv_listen h cb :
  subscriptionInv h -> subscriptionInv (exec (listen bopts cb) h).
Proof.
  intros [Hnd Hinv]. split; [by apply listen_NoDup |].
  destruct (listeners h) as [|c l] eqn:E.
  - rewrite (listen_first bopts h cb browserListener) by done. simpl.
    destruct Hinv as [[Hw Hb] _]. unfold subscribed, unsubscribed; simpl.
    by rewrite Hw.
  - rewrite listen_more by (by rewrite E). simpl. rewrite E.
    unfold set_add. case_decide; simpl; done.
Qed.

Lemma subscriptionInv_unlisten h cb :
  subscriptionInv h -> subscriptionInv (exec (unlisten cb) h).
Proof.
  intros [Hnd Hinv]. split; [by apply unlisten_returns |].
  unfold exec, unlisten, modify; simpl.
  destruct (set_delete cb (listeners h)) as [|c l] eqn:E; simpl; rewrite ?E.
  - destruct (listeners h) as [|c l].
    + destruct Hinv as [Hw Hu]. split; [by apply Hu | done].
    + destruct Hinv as [_ Hu]. split; [apply Hu | intros w _; apply Hu].
  - destruct (listeners h) as [|c' l']; [done | done].
Qed.

Lemma subscriptionInv_perform h c :
  subscriptionInv h -> subscriptionInv (exec (perform bopts c) h).
Proof.
  intros Hinv.
  assert (forall t, subscriptionInv (exec (queueTask bopts t) h)) as Hq.
  { intros t. destruct (queueTask_control bopts h t) as (ran & Hw & Hu & Hl).
    by apply (subscriptionInv_commit h _ ran). }
  destruct c; simpl; try apply Hq.
  - by apply subscriptionInv_listen.
  - by apply subscriptionInv_unlisten.
  - apply (subscriptionInv_commit h _ []); try done;
      unfold exec, block, modify; simpl;
      by destruct (blockers h ++ [b]) as [|? []].
  - apply (subscriptionInv_commit h _ []); try done;
      unfold exec, unblock; simpl;
      by destruct (filter _ (blockers h)).
  - destruct (tryFlush_control bopts h) as (ran & Hw & Hu & Hl).
    by apply (subscriptionInv_commit h _ ran).
  - by apply (subscriptionInv_commit h _ []).
Qed.

Lemma subscriptionInv_run cs h :
  subscriptionInv h -> subscriptionInv (run bopts cs h).
Proof.
  revert h; induction cs as [|c cs IH]; intros h Hinv; [done |].
  simpl. apply IH. by apply subscriptionInv_perform.
Qed.

(** On every history reached by a script of calls from a fresh browser
    history, the platform subscription is installed exactly when the listener
    set is not empty, and never more than once. *)
Lemma browser_subscribed_iff_listening w0 h0 cs :
  unsubscribed w0 -> createHistory bopts w0 = Some h0 ->
  let h := run bopts cs h0 in
  NoDup (listeners h)
  /\ (listeners h <> [] -> subscribed (world h))
  /\ (listeners h = [] -> unsubscribed (world h))
  /\ (bound (world h) = true <-> listeners h <> []).
Proof.
  intros Hw0 Hc h.
  assert (subscriptionInv h0) as H0.
  { unfold createHistory in Hc. simpl in Hc. injection Hc as <-.
    split; [apply NoDup_nil_2 | done]. }
  destruct (subscriptionInv_run cs h0 H0) as [Hnd Hinv]. fold h in Hnd, Hinv.
  split; [done |].
  destruct (listeners h) as [|c l].
  - destruct Hinv as [[Hw Hb] _].
    split; [done | split; [done |]]. rewrite Hb. split; [done | done].
  - destruct Hinv as [[Hw Hb] _].
    split; [done | split; [done |]]. rewrite Hb. split; done.
Qed.

(** On a history that satisfies the invariant, a committed [push] calls every
    registered listener exactly once, and with a listener registered
    [location] is then the adapter's location. *)
Lemma browser_push_notifies_once h path st :
  subscriptionInv h -> blockers h = [] -> queue h = [] ->
  let h' := exec (push bopts path st) h in
  notified h' = notified h ++ listeners h
  /\ (listeners h <> [] -> getLocation bopts (world h') = Some (location h')).
Proof.
  intros [_ Hinv] Hb Hq.
  destruct h as [w l u ls bs q bu nt cs]; simpl in *. subst bs q.
  unfold exec, push, queueTask, bind, modify, tryFlush; simpl.
  unfold bind, runTask; simpl.
  destruct ls as [|c ls]; destruct Hinv as [[Hw _] _]; rewrite Hw; simpl.
  - by rewrite app_nil_r.
  - done.
Qed.

(** One install and one teardown per cycle: [listen] for distinct callbacks,
    each unsubscribe function called once, then [listen] again. *)
Lemma browser_listen_cycle cb cbs cb' h :
  listeners h = [] -> NoDup (cb :: cbs) ->
  let h1 := after (listenAll bopts (cb :: cbs)) h in
  let h2 := after (unlistenAll (cb :: cbs)) h1 in
  let h3 := exec (listen bopts cb') h2 in
  (installed (world h1) = Datatypes.S (installed (world h))
   /\ restored (world h1) = restored (world h))
  /\ (installed (world h2) = Datatypes.S (installed (world h))
      /\ restored (world h2) = Datatypes.S (restored (world h))
      /\ wrappers (world h2) = wrappers (world h))
  /\ (installed (world h3) = Datatypes.S (Datatypes.S (installed (world h)))
      /\ restored (world h3) = Datatypes.S (restored (world h))).
Proof.
  intros Hl Hnd h1 h2 h3.
  destruct (listenAll_installs_once bopts cb cbs h browserListener eq_refl Hl Hnd)
    as (Hw1 & Hu1 & Hl1). fold h1 in Hw1, Hu1, Hl1.
  destruct (unlistenAll_tears_down_once (cb :: cbs) h1) as (Hw2 & Hu2 & Hl2);
    [done | done | by rewrite Hl1 |]. fold h2 in Hw2, Hu2, Hl2.
  assert (world h3 = (browserListener (world h2)).1) as Hw3.
  { subst h3. by rewrite (listen_first bopts h2 cb' browserListener). }
  rewrite Hw3, Hw2, Hu1, Hw1. simpl. done.
Qed.

End BrowserFacts.

(** ** The claims on concrete histories *)

Section Concrete.

(** C1, as stated, fails: with one blocker installed, [push("/a")] followed
    by the blocker calling [retry] leaves [location] at ["/"], the closure
    still queued and the entries untouched; the blocker has merely been
    consulted a second time. *)
Lemma C1_retry_with_blocker_installed :
  exists h0,
    createMemoryHistory (St := unit) ["/"] None = Some h0
    /\ let h := after [block 7%nat; push mem "/a" tt; retry mem] h0 in
       blockers h = [7%nat]
       /\ href (location h) = "/" /\ href (location h) <> "/a"
       /\ queue h = [PushTask "/a" tt]
       /\ entries (world h) = JsArray.of_list ["/"]
       /\ consulted h = [7%nat; 7%nat].
Proof.
  eexists; split; [reflexivity |]. vm_compute.
  repeat split; try reflexivity. discriminate.
Qed.

Lemma C1_push_waits_witness :
  exists h0,
    createMemoryHistory (St := unit) ["/"] None = Some h0
    /\ let h := exec (block 7%nat) h0 in
       let h3 := after [push mem "/a" tt; unblock 7%nat; retry mem] h in
       blockers h = [7%nat] /\ queue h = []
       /\ href (location (exec (push mem "/a" tt) h)) = "/"
       /\ location h3 = parseLocation "/a" (Keyed tt O).
Proof.
  eexists; split; [reflexivity |].
  set (h := exec (block 7%nat) _).
  pose proof (C1_push_waits_for_unblock_and_retry mem h 7%nat "/a" tt
                eq_refl eq_refl) as ((_ & Hl1 & _) & _ & _ & _ & _ & Hl3).
  split; [reflexivity | split; [reflexivity | split]].
  - cbv zeta in Hl1. rewrite Hl1. reflexivity.
  - apply Hl3; [apply memory_handlerFree | reflexivity].
Defined.

(** C2: the parser on an href that starts with a delimiter.  For ["#a"] the
    pathname is ["#a"] and so is the hash; for ["?a#b"] the pathname and the
    search are both ["?a"]: the components concatenate to more than the
    href. *)
Theorem C2_delimiter_first_is_duplicated :
  (let l := parseLocation "#a" tt in
   pathname l = "#a" /\ search l = "" /\ hash l = "#a"
   /\ recompose l = "#a#a" /\ recompose l <> href l)
  /\ (let l := parseLocation "?a#b" tt in
      pathname l = "?a" /\ search l = "?a" /\ hash l = "#b"
      /\ recompose l = "?a?a#b" /\ recompose l <> href l).
Proof. vm_compute. repeat split; discriminate. Qed.

(** C3: on the history of the entries ["/a"], ["/b"] with the cursor on
    ["/b"], [back] gives ["/a"], [forward] gives ["/b"] again and a further
    [forward] changes nothing.  On a history whose cursor is on the first
    entry, [back] moves the cursor to [-1]: it designates no entry, the
    recomputation of the location throws, and [location] is left as it
    was. *)
Theorem C3_back_at_first_entry_is_not_clamped :
  (exists h0,
     createMemoryHistory (St := unit) ["/a"; "/b"] (Some 1) = Some h0
     /\ let h1 := exec (history_back mem) h0 in
        let h2 := exec (history_forward mem) h1 in
        let h3 := exec (history_forward mem) h2 in
        href (location h1) = "/a" /\ index (world h1) = 0
        /\ href (location h2) = "/b" /\ index (world h2) = 1
        /\ href (location h3) = "/b" /\ index (world h3) = 1)
  /\ (exists h0,
        createMemoryHistory (St := unit) ["/a"] (Some 0) = Some h0
        /\ let h1 := exec (history_back mem) h0 in
           returns (history_back mem) h0 = false
           /\ index (world h1) = -1
           /\ ~ cursorValid (world h1)
           /\ memoryGetLocation (world h1) = None
           /\ location h1 = location h0).
Proof.
  split; (eexists; split; [reflexivity |]).
  - vm_compute. repeat split; reflexivity.
  - split; [reflexivity | split; [reflexivity | split]].
    + apply memoryBack_first. reflexivity.
    + split; reflexivity.
Qed.

Lemma C4_cancel_witness :
  exists h0,
    createMemoryHistory (St := unit) ["/"] None = Some h0
    /\ let h := exec (block 7%nat) h0 in
       let h2 := exec cancel (exec (push mem "/a" tt) h) in
       blockers h <> []
       /\ blockers h2 = [] /\ location h2 = location h0
       /\ queue h2 = [PushTask "/a" tt] /\ exec cancel h2 = h2.
Proof.
  eexists; split; [reflexivity |].
  set (h := exec (block 7%nat) _).
  assert (blockers h <> []) as Hb by discriminate.
  pose proof (C4_cancel_clears_blockers_only mem h "/a" tt Hb)
    as (_ & Hbl & _ & Hl & _ & Hq1 & Hq2 & _ & Hc).
  cbv zeta in *.
  split; [exact Hb | split; [exact Hbl | split; [exact Hl | split]]].
  - rewrite Hq2, Hq1. reflexivity.
  - exact Hc.
Defined.

(** C5, as stated, fails: on a browser history with no listener
    registered, [push("/a")] is committed (the address is ["/a"]) while
    [location] is still the one of ["/"]. *)
Lemma C5_browser_location_stale_without_listener :
  exists h0,
    createBrowserHistory (St := unit) (freshWindow "/") = Some h0
    /\ let h := exec (push web "/a" tt) h0 in
       listeners h = [] /\ queue h = []
       /\ address (world h) = "/a"
       /\ href <$> getLocation web (world h) = Some "/a"
       /\ href (location h) = "/"
       /\ getLocation web (world h) <> Some (location h).
Proof.
  eexists; split; [reflexivity |]. vm_compute.
  repeat split; try reflexivity. discriminate.
Qed.

Lemma C5_location_recomputed_witness :
  exists hf hn,
    createMemoryHistory (St := unit) ["/"] None = Some hf
    /\ exec (listen web 1%nat)
         <$> createBrowserHistory (St := unit) (freshWindow "/") = Some hn
    /\ location (exec (push mem "/a" tt) hf)
       = parseLocation "/a" (Keyed tt O)
    /\ getLocation web (world (exec (push web "/b" tt) hn))
       = Some (location (exec (push web "/b" tt) hn))
    /\ href (location (exec (push web "/b" tt) hn)) = "/b".
Proof.
  eexists; eexists. split; [reflexivity | split; [reflexivity |]].
  match goal with |- context [exec (push mem "/a" tt) ?a] => set (hf := a) end.
  match goal with |- context [exec (push web "/b" tt) ?a] => set (hn := a) end.
  assert (forall w : Window unit, is_Some (getLocation web w)) as Htotal
    by (intros w; eexists; reflexivity).
  assert (is_Some (listener web)) as Hsome by (eexists; reflexivity).
  pose proof (C5_location_recomputed_by_handler mem web hf hn
                (PushTask "/a" tt) (PushTask "/b" tt)
                (parseLocation "/a" (Keyed tt O))
                memory_handlerFree eq_refl eq_refl Hsome eq_refl eq_refl
                Htotal) as ((_ & _ & Hlf & _) & _ & _ & Hln & _).
  split; [exact Hlf | split; [apply Hln; discriminate |]].
  reflexivity.
Defined.

Lemma C6_queue_is_fifo_witness :
  exists h,
    createMemoryHistory (St := unit) ["/"] None = Some h
    /\ let hb := exec (block 7%nat) h in
       let a := PushTask "/a" tt in
       let b := PushTask "/b" tt in
       let ts := [PushTask "/c" tt; BackTask] in
       let hAB := exec (push mem "/b" tt) (exec (push mem "/a" tt) h) in
       let hq := issue mem ts hb in
       world hAB = commit mem b (commit mem a (world h))
       /\ world hq = world hb /\ queue hq = ts
       /\ world (exec (retry mem) (exec cancel hq))
          = commitAll mem ts (world hb).
Proof.
  eexists; split; [reflexivity |].
  match goal with |- context [exec (block 7%nat) ?a] => set (h := a) end.
  set (hb := exec (block 7%nat) h).
  assert (blockers hb <> []) as Hbb by discriminate.
  pose proof (C6_queue_is_fifo mem h hb "/a" tt "/b" tt
                [PushTask "/c" tt; BackTask] eq_refl Hbb eq_refl eq_refl)
    as (_ & (HA & HAB & _) & (Hw & Hq & _) & Hretry).
  cbv zeta in *.
  split; [rewrite HAB, HA; reflexivity |].
  split; [exact Hw | split; [exact Hq |]].
  exact (proj1 (Hretry
                  (exec cancel (issue mem [PushTask "/c" tt; BackTask] hb))
                  eq_refl eq_refl eq_refl eq_refl)).
Defined.

Lemma C7_flush_notifies_witness :
  exists hf hn,
    after [listen mem 1%nat; listen mem 2%nat]
      <$> createMemoryHistory (St := unit) ["/"] None = Some hf
    /\ after [listen web 1%nat; listen web 2%nat; block 7%nat;
              push web "/a" tt; cancel]
         <$> createBrowserHistory (St := unit) (freshWindow "/") = Some hn
    /\ notified hf = [] /\ notified hn = []
    /\ queue hn = [PushTask "/a" tt]
    /\ notified (exec (tryFlush mem) hf) = [1%nat; 2%nat]
    /\ notified (exec (tryFlush web) hn) = [1%nat; 2%nat].
Proof.
  eexists; eexists. split; [reflexivity | split; [reflexivity |]].
  match goal with |- context [exec (tryFlush mem) ?a] => set (hf := a) end.
  match goal with |- context [exec (tryFlush web) ?a] => set (hn := a) end.
  assert (forall w : Window unit, is_Some (getLocation web w)) as Htotal
    by (intros w; eexists; reflexivity).
  assert (is_Some (listener web)) as Hsome by (eexists; reflexivity).
  assert (NoDup (listeners hf)) as Hnd.
  { apply (NoDup_cons_2 1%nat [2%nat]).
    - intros H. apply list_elem_of_singleton in H. discriminate.
    - apply NoDup_singleton. }
  pose proof (C7_flush_notifies_once_per_change mem web hf hn
                (parseLocation "/" EmptyState)
                memory_handlerFree eq_refl Hnd eq_refl Hsome eq_refl Htotal)
    as ((_ & _ & _ & _ & calls & Hc & _) & _ & _ & _ & _ & H1).
  split; [reflexivity | split; [reflexivity | split; [reflexivity |]]].
  split; [| exact (H1 eq_refl)].
  reflexivity.
Defined.

(** C8: on a browser history, [listen(cb)] followed by its unsubscribe
    function installs the subscription once and restores the platform once;
    calling the same unsubscribe function again returns and leaves the
    listener set empty, but runs the teardown a second time. *)
Theorem C8_second_unsubscribe_tears_down_again :
  exists h0,
    createBrowserHistory (St := unit) (freshWindow "/") = Some h0
    /\ let h1 := after [listen web 1%nat; unlisten 1%nat] h0 in
       let h2 := exec (unlisten 1%nat) h1 in
       (listeners h1 = [] /\ installed (world h1) = 1%nat
        /\ restored (world h1) = 1%nat)
       /\ returns (unlisten 1%nat) h1 = true
       /\ listeners h2 = [] /\ installed (world h2) = 1%nat
       /\ restored (world h2) = 2%nat.
Proof.
  eexists; split; [reflexivity |]. vm_compute. repeat split; reflexivity.
Qed.

Lemma C9_memory_push_witness :
  exists h0,
    createMemoryHistory (St := unit) ["/a"; "/b"] (Some 1) = Some h0
    /\ let h := exec (history_back mem) h0 in
       let h' := exec (push mem "/c" tt) h in
       index (world h) = 0
       /\ entries (world h') = JsArray.of_list ["/a"; "/b"; "/c"]
       /\ index (world h') = 1
       /\ location h' = parseLocation "/b" (Keyed tt O).
Proof.
  eexists; split; [reflexivity |]. cbv zeta.
  match goal with |- context [exec (push mem "/c" tt) ?a] => set (h := a) end.
  pose proof (C9_memory_push_appends_and_steps_cursor (world h) "/c" tt)
    as (_ & _ & Hmid & Hcore).
  cbv zeta in *.
  destruct (Hcore h eq_refl eq_refl eq_refl) as (Hw & Hl).
  split; [reflexivity |]. unfold mem. rewrite Hw.
  split; [reflexivity | split; [reflexivity |]].
  apply Hl. rewrite (proj2 (Hmid ltac:(vm_compute; reflexivity))).
  reflexivity.
Defined.

Lemma C10_memory_go_witness :
  exists h,
    createMemoryHistory (St := unit) ["/a"; "/b"] (Some 0) = Some h
    /\ let h' := exec (history_go mem 1) h in
       returns (history_go mem 1) h = true
       /\ entries (world h') = entries (world h)
       /\ index (world h') = 0
       /\ location h' = location h
       /\ platformGo (world h') = [1].
Proof.
  eexists; split; [reflexivity |].
  match goal with |- context [exec (history_go mem 1) ?a] => set (h := a) end.
  pose proof (C10_memory_go_only_calls_platform h 1 eq_refl eq_refl)
    as ((_ & _ & _ & Hg & _) & (Hr & He & Hi & Hl) & Hfree & _).
  cbv zeta in *. destruct (Hfree eq_refl) as (Hw & _).
  split; [exact Hr | split; [exact He | split; [| split; [exact Hl |]]]].
  - unfold mem. rewrite Hi. reflexivity.
  - unfold mem. rewrite Hw, Hg. reflexivity.
Defined.

End Concrete.

(** * Further properties of the code *)

(** ** The location parser: shape of the components *)

Section ParseShape.

Context {St : Type}.
Implicit Types (s : string) (st : St) (c : ascii).

Import JsString JsStringFacts.

Lemma find_take_None c s n :
  find c s = None \/ (exists i, find c s = Some i /\ (n <= i)%nat) ->
  find c (take n s) = None.
Proof.
  revert n; induction s as [|d s IH]; intros n H; [by destruct n |].
  destruct n as [|n]; [done |]. simpl in *.
  destruct (Ascii.eqb d c).
  - destruct H as [H|(i & [= <-] & Hi)]; [done | lia].
  - rewrite IH; [done |].
    destruct (find c s) as [j|]; [right | by left].
    destruct H as [H|(i & [= <-] & Hi)]; [done |]. exists j. split; [done | lia].
Qed.

Lemma find_drop c s i n :
  find c s = Some i -> (n <= i)%nat -> find c (drop n s) = Some (i - n)%nat.
Proof.
  revert i n; induction s as [|d s IH]; intros i n H Hn; [done |].
  destruct n as [|n]; [by rewrite Nat.sub_0_r |]. simpl in *.
  destruct (Ascii.eqb d c); [injection H as <-; lia |].
  destruct (find c s) as [j|]; [| done]. injection H as <-.
  apply (IH j n eq_refl). lia.
Qed.

Lemma find_drop_None c s n : find c s = None -> find c (drop n s) = None.
Proof.
  revert n; induction s as [|d s IH]; intros n H; [by destruct n |].
  destruct n as [|n]; [done |]. simpl in *.
  destruct (Ascii.eqb d c); [done |].
  destruct (find c s); [done |]. by apply IH.
Qed.

(** The string from the first occurrence of [c] on starts with [c]. *)
Lemma drop_find c s i :
  find c s = Some i -> exists r, drop i s = String c r.
Proof.
  revert i; induction s as [|d s IH]; intros i H; [done |]. simpl in H.
  destruct (Ascii.eqb d c) eqn:E.
  - injection H as <-. apply Ascii.eqb_eq in E as ->. by eexists.
  - destruct (find c s) as [j|]; [| done]. injection H as <-. by apply IH.
Qed.

Lemma indexOf_find c s :
  (indexOf c s = -1 /\ find c s = None)
  \/ (0 <= indexOf c s /\ find c s = Some (Z.to_nat (indexOf c s))).
Proof.
  unfold indexOf. destruct (find c s) as [i|]; [right | by left].
  split; [lia |]. by rewrite Nat2Z.id.
Qed.

(** No [c] in the part of [s] that ends at or before the first [c]. *)
Lemma indexOf_range_before c s a b :
  0 <= a -> (indexOf c s = -1 \/ b <= indexOf c s) ->
  indexOf c (range s a b) = -1.
Proof.
  intros Ha H. unfold range.
  assert (find c (take (Z.to_nat (b - a)) (drop (Z.to_nat a) s)) = None) as E;
    [| by unfold indexOf; rewrite E].
  apply find_take_None.
  destruct (indexOf_find c s) as [[Hi Hf]|[Hi Hf]].
  - left. by apply find_drop_None.
  - destruct H as [H|H]; [lia |].
    destruct (decide (a <= indexOf c s)) as [Hle|Hgt].
    + right. eexists. split; [apply (find_drop _ _ _ _ Hf); lia | lia].
    + replace (Z.to_nat (b - a)) with O by lia.
      destruct (find c (drop (Z.to_nat a) s)) as [j|]; [right | by left].
      exists j. split; [done | lia].
Qed.

(** The part of [s] from the first [c] on starts with [c]. *)
Lemma range_from_first c s b :
  0 <= indexOf c s < b ->
  exists r, range s (indexOf c s) b = String c r.
Proof.
  intros H. unfold range.
  destruct (indexOf_find c s) as [[Hi _]|[_ Hf]]; [lia |].
  destruct (drop_find _ _ _ Hf) as [r ->].
  destruct (Z.to_nat (b - indexOf c s)) as [|n] eqn:E; [lia |].
  simpl. by eexists.
Qed.

(** X1: an href without ['#'] and without ['?'] is its own pathname, with
    empty search and hash, and the components concatenate back to it. *)
Theorem X1_parse_without_delimiters s st :
  indexOf "#" s = -1 -> indexOf "?" s = -1 ->
  let l := parseLocation s st in
  pathname l = s /\ search l = "" /\ hash l = "" /\ recompose l = s.
Proof.
  intros Hh Hq l.
  destruct (parseLocation_plain s st Hh Hq) as (Hp & Hs & Hha).
  subst l. split; [done | split; [done | split; [done |]]].
  apply parseLocation_recompose; lia.
Qed.

(** X3: when the first ['?'] comes after the start and before the first
    ['#'], the pathname is what precedes the ['?'], the search runs from the
    ['?'] up to but not including the ['#'], and the hash is the rest. *)
Theorem X3_parse_search_before_hash s st :
  0 < indexOf "?" s < indexOf "#" s ->
  let l := parseLocation s st in
  pathname l = range s 0 (indexOf "?" s)
  /\ search l = range s (indexOf "?" s) (indexOf "#" s)
  /\ hash l = range s (indexOf "#" s) (len s).
Proof.
  intros H l. subst l. unfold parseLocation; simpl.
  destruct (indexOf_range "#" s) as [Eh|Rh]; [lia |].
  destruct (Z.ltb_spec 0 (indexOf "#" s)); [| lia].
  destruct (Z.ltb_spec 0 (indexOf "?" s)); [| lia].
  destruct (Z.ltb_spec (-1) (indexOf "#" s)); [| lia].
  destruct (Z.ltb_spec (-1) (indexOf "?" s)); [| lia].
  destruct (Z.eqb_spec (indexOf "#" s) (-1)); [lia |].
  rewrite substring_range, substring_from, slice_range by lia.
  by rewrite Z.min_r, Z.max_r by lia.
Qed.

(** X4: a ['?'] that comes after the first ['#'] belongs to the hash: the
    search is empty and the hash runs from the ['#'] to the end, the ['?']
    included. *)
Theorem X4_parse_query_after_hash s st :
  0 <= indexOf "#" s < indexOf "?" s ->
  let l := parseLocation s st in
  search l = ""
  /\ hash l = range s (indexOf "#" s) (len s)
  /\ indexOf "?" (hash l) = indexOf "?" s - indexOf "#" s.
Proof.
  intros H l. subst l. unfold parseLocation; simpl.
  destruct (indexOf_range "?" s) as [Eq|Rq]; [lia |].
  destruct (Z.ltb_spec (-1) (indexOf "#" s)); [| lia].
  destruct (Z.ltb_spec (-1) (indexOf "?" s)); [| lia].
  destruct (Z.eqb_spec (indexOf "#" s) (-1)); [lia |].
  rewrite substring_from, slice_range by lia.
  split; [apply range_empty; lia | split; [done |]].
  unfold range.
  rewrite take_all by (rewrite length_drop; unfold len; lia).
  destruct (indexOf_find "?" s) as [[Hi _]|[_ Hf]]; [lia |].
  unfold indexOf at 1.
  rewrite (find_drop _ _ _ (Z.to_nat (indexOf "#" s)) Hf) by lia. lia.
Qed.

(** X5: when neither delimiter is the first character, the pathname
    contains neither ['#'] nor ['?']. *)
Theorem X5_parse_pathname_has_no_delimiter s st :
  indexOf "#" s <> 0 -> indexOf "?" s <> 0 ->
  let l := parseLocation s st in
  indexOf "#" (pathname l) = -1 /\ indexOf "?" (pathname l) = -1.
Proof.
  intros Hh Hq l. subst l. unfold parseLocation; simpl.
  assert (0 <= len s) as Hlen by (unfold len; lia).
  destruct (indexOf_range "#" s) as [Eh|Rh],
           (indexOf_range "?" s) as [Eq|Rq].
  - rewrite Eh, Eq; simpl. rewrite substring_range by lia.
    split; apply indexOf_range_before; lia.
  - rewrite Eh; simpl. destruct (Z.ltb_spec 0 (indexOf "?" s)); [| lia].
    rewrite substring_range by lia.
    split; apply indexOf_range_before; lia.
  - rewrite Eq; simpl. destruct (Z.ltb_spec 0 (indexOf "#" s)); [| lia].
    rewrite substring_range by lia.
    split; apply indexOf_range_before; lia.
  - destruct (Z.ltb_spec 0 (indexOf "#" s)); [| lia].
    destruct (Z.ltb_spec 0 (indexOf "?" s)); [| lia].
    rewrite substring_range by lia.
    split; apply indexOf_range_before; lia.
Qed.

(** X6: the search never contains a ['#']; a search that is not empty
    starts with ['?'] and a hash that is not empty starts with ['#']; the
    hash is empty exactly when the href has no ['#']. *)
Theorem X6_parse_search_and_hash_shape s st :
  let l := parseLocation s st in
  indexOf "#" (search l) = -1
  /\ (search l = "" \/ exists r, search l = String "?" r)
  /\ (hash l = "" \/ exists r, hash l = String "#" r)
  /\ (hash l = "" <-> indexOf "#" s = -1).
Proof.
  intros l. subst l. unfold parseLocation; simpl.
  assert (0 <= len s) as Hlen by (unfold len; lia).
  assert (hash_shape :
    (indexOf "#" s = -1
     /\ (if -1 <? indexOf "#" s then substring s (indexOf "#" s) None else "")
        = "")
    \/ (0 <= indexOf "#" s < len s
        /\ exists r,
             (if -1 <? indexOf "#" s then substring s (indexOf "#" s) None
              else "") = String "#" r)).
  { destruct (indexOf_range "#" s) as [Eh|Rh]; [left; by rewrite Eh |].
    right. split; [done |]. destruct (Z.ltb_spec (-1) (indexOf "#" s)); [| lia].
    rewrite substring_from by lia. apply range_from_first. lia. }
  split; [| split; [| split]].
  - destruct (indexOf_range "?" s) as [Eq|Rq]; [by rewrite Eq |].
    destruct (Z.ltb_spec (-1) (indexOf "?" s)); [| lia].
    destruct (indexOf_range "#" s) as [Eh|Rh].
    + rewrite Eh; simpl. rewrite slice_from by lia.
      apply indexOf_range_before; lia.
    + destruct (Z.eqb_spec (indexOf "#" s) (-1)); [lia |].
      rewrite slice_range by lia.
      destruct (decide (indexOf "?" s < indexOf "#" s)).
      * apply indexOf_range_before; lia.
      * by rewrite range_empty by lia.
  - destruct (indexOf_range "?" s) as [Eq|Rq]; [left; by rewrite Eq |].
    destruct (Z.ltb_spec (-1) (indexOf "?" s)); [| lia].
    destruct (indexOf_range "#" s) as [Eh|Rh].
    + rewrite Eh; simpl. rewrite slice_from by lia.
      right. apply range_from_first. lia.
    + destruct (Z.eqb_spec (indexOf "#" s) (-1)); [lia |].
      rewrite slice_range by lia.
      destruct (decide (indexOf "?" s < indexOf "#" s)).
      * right. apply range_from_first. lia.
      * left. apply range_empty. lia.
  - destruct hash_shape as [[_ ->]|[_ [r ->]]]; [by left | right; by eexists].
  - destruct hash_shape as [[E ->]|[R [r ->]]]; [done |].
    split; [done | lia].
Qed.

End ParseShape.

(** ** The core: blockers, the unload guard and the listener set *)

Section CoreExtras.

Context {St W : Type}.
Variable opts : Opts St W.
Implicit Types (h : History St W) (t : Task St) (ts : list (Task St)).

(** A flush attempt leaves the blocker list, the unload guard, the listener
    set and the stored teardown alone. *)
Lemma tryFlush_keeps_control h :
  let h' := exec (tryFlush opts) h in
  blockers h' = blockers h /\ beforeUnload h' = beforeUnload h
  /\ listeners h' = listeners h /\ unsub h' = unsub h.
Proof.
  unfold exec, tryFlush. destruct (blockers h) as [|b bs] eqn:Eb.
  - destruct (flushLoop_fifo opts (List.length (queue h)) h)
      as (ran & _ & _ & (Hu & Hl & Hb & Hg & _) & _).
    unfold exec, bind in *.
    destruct (flushLoop opts _ h) as [[[]|] h1]; simpl in *.
    + destruct (listener opts); simpl; [by rewrite Hb, Hg, Hl, Hu |].
      pose proof (onUpdate_frame opts h1)
        as (_ & _ & Hu1 & Hl1 & Hb1 & Hg1 & _).
      unfold exec in *. by rewrite Hb1, Hg1, Hl1, Hu1, Hb, Hg, Hl, Hu.
    + by rewrite Hb, Hg, Hl, Hu.
  - simpl. by rewrite Eb.
Qed.

Lemma guardInv_perform h c :
  guardInv h -> guardInv (exec (perform opts c) h).
Proof.
  intros Hinv.
  assert (forall t, guardInv (exec (queueTask opts t) h)) as Hq.
  { intros t. unfold exec, queueTask, bind, modify.
    destruct (tryFlush_keeps_control (with_queue (queue h ++ [t]) h))
      as (Hb & Hg & _).
    unfold exec, guardInv in *. by rewrite Hb, Hg. }
  unfold guardInv in *.
  destruct c; simpl; try apply Hq.
  - (* listen *)
    unfold exec, listen, modify; simpl.
    destruct (listeners h); [| done].
    destruct (listener opts) as [subscribe|]; [| done].
    by destruct (subscribe (world h)).
  - (* unlisten *)
    unfold exec, unlisten, modify; simpl.
    by destruct (set_delete cb (listeners h)).
  - (* block *)
    unfold exec, block, modify; simpl.
    destruct (blockers h) as [|b0 [|b1 bs]] eqn:E; simpl.
    + split; done.
    + split; [done |]. intros _. by apply Hinv.
    + split; [done |]. intros _. by apply Hinv.
  - (* unblock *)
    unfold exec, unblock; simpl.
    destruct (filter (fun b0 => b0 <> b) (blockers h)) as [|b0 bs] eqn:E;
      simpl; rewrite ?E.
    + split; done.
    + split; [done |]. intros _. apply Hinv. intros Hnil.
      by rewrite Hnil in E.
  - (* retry *)
    destruct (tryFlush_keeps_control h) as (Hb & Hg & _).
    unfold retry. by rewrite Hb, Hg.
  - (* cancel *)
    split; done.
Qed.

(** X7: on every history reached by any script of calls, the [beforeunload]
    guard is registered exactly when the blocker list is not empty: [block]
    registers it with the first blocker, and [unblock] of the last blocker
    and [cancel] remove it. *)
Theorem X7_unload_guard_follows_blockers (w : W) h0 cs :
  createHistory opts w = Some h0 ->
  let h := run opts cs h0 in
  beforeUnload h = true <-> blockers h <> [].
Proof.
  intros Hc. cbv zeta. change (guardInv (run opts cs h0)).
  assert (guardInv h0) as H0.
  { unfold createHistory in Hc. destruct (getLocation opts w); [| done].
    injection Hc as <-. split; done. }
  clear Hc. revert h0 H0. induction cs as [|c cs IH]; intros h0 H0; [done |].
  simpl. apply IH. by apply guardInv_perform.
Qed.

(** X8: the listener set holds a callback once: a second [listen] of the
    same callback changes nothing at all (no second install either), and one
    call of an unsubscribe function of the callback removes it. *)
Theorem X8_listen_twice_registers_once h cb :
  exec (listen opts cb) (exec (listen opts cb) h) = exec (listen opts cb) h
  /\ cb ∉ listeners (exec (unlisten cb) (exec (listen opts cb) h)).
Proof.
  split.
  - set (h1 := exec (listen opts cb) h).
    assert (cb ∈ listeners h1) as Hin.
    { subst h1. unfold exec, listen, modify; simpl.
      assert (forall l : list Callback, cb ∈ set_add cb l) as Hadd.
      { intros l. unfold set_add. case_decide; [done |].
        apply elem_of_app. right. by apply list_elem_of_singleton. }
      destruct (listeners h); [| apply Hadd].
      destruct (listener opts) as [subscribe|]; [| apply Hadd].
      destruct (subscribe (world h)). apply Hadd. }
    rewrite listen_more by (intros E; rewrite E in Hin; by apply elem_of_nil in Hin).
    unfold set_add. rewrite decide_True by done. by destruct h1.
  - unfold exec at 1, unlisten, modify; simpl.
    assert (cb ∉ set_delete cb (listeners (exec (listen opts cb) h))) as Hnin.
    { unfold set_delete. intros [Hne _]%list_elem_of_filter. done. }
    by destruct (set_delete cb _).
Qed.

(** X9: while blockers are installed, every navigation call consults the
    first blocker and only it, once per call; no listener is called and the
    blocker list stays as it is. *)
Theorem X9_only_first_blocker_is_consulted h b bs ts :
  blockers h = b :: bs ->
  let h' := issue opts ts h in
  consulted h' = consulted h ++ replicate (List.length ts) b
  /\ notified h' = notified h /\ blockers h' = b :: bs.
Proof.
  revert h; induction ts as [|t ts IH]; intros h Hb; simpl.
  { by rewrite app_nil_r. }
  unfold exec. rewrite (queueTask_blocked opts h b bs) by done. simpl.
  match goal with |- context [issue opts ts ?x] =>
    destruct (IH x Hb) as (Hc & Hn & Hbl)
  end.
  rewrite Hc, Hn, Hbl. simpl. by rewrite <- app_assoc.
Qed.

(** X10: [cancel] does not drop the queue.  After a blocked [push(A)] has
    been cancelled, the next navigation call that returns runs the closure of
    [push(A)] first and then its own. *)
Theorem X10_cancelled_push_runs_with_next_call h path st t :
  blockers h <> [] -> queue h = [] ->
  let h2 := exec cancel (exec (push opts path st) h) in
  returns (queueTask opts t) h2 = true ->
  let h3 := exec (queueTask opts t) h2 in
  world h2 = world h /\ queue h2 = [PushTask path st]
  /\ world h3 = commit opts t (commit opts (PushTask path st) (world h))
  /\ queue h3 = [].
Proof.
  intros Hb Hq h2 R h3. destruct (blockers h) as [|b bs] eqn:E; [done |].
  assert (world h2 = world h /\ queue h2 = [PushTask path st]
          /\ blockers h2 = []) as (Hw2 & Hq2 & Hb2).
  { subst h2. unfold exec, push.
    rewrite (queueTask_blocked opts h b bs) by done. simpl. by rewrite Hq. }
  split; [done | split; [done |]].
  subst h3. clearbody h2.
  unfold exec, returns, queueTask, bind, modify in *. simpl in *.
  set (h2' := with_queue (queue h2 ++ [t]) h2) in *.
  destruct (tryFlush_fifo opts h2') as (ran & Hran & Hw & _ & _ & Hret).
  unfold exec, returns in *.
  rewrite Hret in Hran by done. rewrite app_nil_r in Hran. subst ran.
  rewrite Hret by done. rewrite Hw. subst h2'; simpl. by rewrite Hq2, Hw2.
Qed.

(** X11: removing the last blocker does not flush.  After calls issued
    while one blocker was installed, the unblock function empties the
    blocker list and removes the unload guard, and leaves the queue, the
    adapter, [location] and the listeners' log as they were. *)
Theorem X11_unblock_does_not_flush h b ts :
  blockers h = [b] ->
  let h1 := issue opts ts h in
  let h2 := exec (unblock b) h1 in
  returns (unblock b) h1 = true
  /\ blockers h2 = [] /\ beforeUnload h2 = false
  /\ queue h2 = queue h ++ ts /\ world h2 = world h
  /\ location h2 = location h /\ notified h2 = notified h.
Proof.
  intros Hb h1 h2.
  destruct (issue_blocked opts ts h) as (Hw & Hl & Hq & Hbl & Hn & _);
    [by rewrite Hb |].
  fold h1 in Hw, Hl, Hq, Hbl, Hn. rewrite Hb in Hbl.
  assert (filter (fun b0 : BlockerFn => b0 <> b) (blockers h1) = []) as E.
  { rewrite Hbl. rewrite filter_cons_False; [done | by intros ?]. }
  subst h2. unfold exec, returns, unblock; simpl. rewrite E. simpl.
  by rewrite Hq, Hw, Hl, Hn.
Qed.

End CoreExtras.

(** ** The in-memory adapter: construction, replace, and the cursor *)

Section MemoryExtras.

Context {St : Type}.
Implicit Types (w : MemoryWorld St) (h : History St (MemoryWorld St)).
Implicit Types (t : Task St) (ts : list (Task St)).

Import JsArrayFacts.

Local Abbreviation mopts := (memoryOpts (St := St)).

(** X12: [createMemoryHistory] returns a history exactly when the initial
    index (by default the last position) designates one of the initial
    entries, and otherwise throws; the history it returns has the location of
    that entry with the empty state, the cursor on it, and nothing
    registered or queued. *)
Theorem X12_createMemoryHistory_defined_iff (l : list string) (oi : option Z) :
  let i := default (Z.of_nat (List.length l) - 1) oi in
  (is_Some (createMemoryHistory (St := St) l oi)
   <-> 0 <= i < Z.of_nat (List.length l))
  /\ (forall h, createMemoryHistory l oi = Some h ->
      index (world h) = i
      /\ (exists e, l !! Z.to_nat i = Some e
                    /\ location h = parseLocation e EmptyState)
      /\ listeners h = [] /\ blockers h = [] /\ queue h = []).
Proof.
  intros i.
  assert (index (memoryWorld (St := St) l oi) = i) as Hi by (by destruct oi).
  unfold createMemoryHistory, createHistory. simpl.
  unfold memoryGetLocation. rewrite Hi.
  change (entries (memoryWorld l oi)) with (JsArray.of_list l).
  rewrite get_of_list.
  split.
  - case_decide as H0.
    + destruct (l !! Z.to_nat i) as [e|] eqn:E.
      * split; [intros _ | by eexists].
        apply lookup_lt_Some in E. lia.
      * split; [by intros [? ?] |]. intros Hr.
        apply lookup_ge_None in E. lia.
    + split; [by intros [? ?] | lia].
  - intros h. case_decide as H0; [| done].
    destruct (l !! Z.to_nat i) as [e|] eqn:E; [| done].
    intros [= <-]. simpl. split; [done | split; [| done]].
    by exists e.
Qed.

(** X13: [replace] on a well-formed in-memory history with nothing queued
    and no blocker returns, overwrites the entry under the cursor and no
    other, keeps the length and the cursor, and leaves [location] parsed from
    the new path with the new keyed state. *)
Theorem X13_memory_replace_overwrites_cursor_entry h path st :
  blockers h = [] -> queue h = [] -> memoryWellFormed (world h) ->
  let h' := exec (replace mopts path st) h in
  returns (replace mopts path st) h = true
  /\ location h' = parseLocation path (Keyed st (draws (world h)))
  /\ index (world h') = index (world h)
  /\ JsArray.length (entries (world h')) = JsArray.length (entries (world h))
  /\ JsArray.get (entries (world h')) (index (world h)) = Some path
  /\ (forall i, i <> index (world h) ->
      JsArray.get (entries (world h')) i = JsArray.get (entries (world h)) i)
  /\ memoryWellFormed (world h').
Proof.
  intros Hb Hq Hwf h'.
  pose proof (memoryReplaceState_wellFormed path st _ Hwf) as Hwf'.
  assert (queueTask mopts (ReplaceTask path st) h =
            (Normal tt,
             mkHistory (memoryReplaceState path st (world h)).1
               (parseLocation path (Keyed st (draws (world h))))
               (unsub h) (listeners h) (blockers h) [] (beforeUnload h)
               (notified h ++ listeners h) (consulted h))) as E.
  { rewrite memory_queueTask by done. rewrite Hq. simpl.
    rewrite (onUpdate_Some _ _
               (parseLocation path (Keyed st (draws (world h))))); [done |].
    simpl. unfold commitAll, commit, memoryGetLocation; simpl.
    by rewrite get_set_same. }
  subst h'. unfold exec, returns, replace. rewrite E. simpl.
  destruct Hwf as [_ Hc]. unfold cursorValid in Hc.
  split; [done | split; [done | split; [done | split; [| split; [| split]]]]].
  - destruct (Z.leb_spec (JsArray.length (entries (world h)))
                (index (world h))); [lia | done].
  - apply get_set_same.
  - intros i Hi. by apply get_set_other.
  - exact Hwf'.
Qed.

Lemma memory_commit_noBack_wellFormed t w :
  isBack t = false -> memoryWellFormed w ->
  memoryWellFormed (commit mopts t w).
Proof.
  intros Ht Hwf. destruct t; try done; unfold commit; simpl.
  - by apply memoryPushState_wellFormed.
  - by apply memoryReplaceState_wellFormed.
  - by apply (memoryForward_wellFormed w).
Qed.

Lemma issue_snoc {W} (opts : Opts St W) ts t (h : History St W) :
  issue opts (ts ++ [t]) h = exec (queueTask opts t) (issue opts ts h).
Proof. unfold issue. by rewrite fold_left_app. Qed.

(** Calls other than [back] on a well-formed history with nothing queued and
    no blocker all return, and keep the history well formed and in step with
    the adapter. *)
Lemma memory_noBack_issue ts h :
  blockers h = [] -> queue h = [] -> memoryWellFormed (world h) ->
  noBack ts ->
  let h' := issue mopts ts h in
  allReturn mopts ts h = true
  /\ world h' = commitAll mopts ts (world h)
  /\ memoryWellFormed (world h')
  /\ queue h' = [] /\ blockers h' = []
  /\ (ts <> [] \/ memoryGetLocation (world h) = Some (location h) ->
      memoryGetLocation (world h') = Some (location h')).
Proof.
  revert h; induction ts as [|t ts IH]; intros h Hb Hq Hwf Hnb; simpl.
  { split; [done | split; [done | split; [done | split; [done | split]]]];
      [done |]. by intros [|]. }
  apply Forall_cons in Hnb as [Ht Hnb].
  pose proof (memory_commit_noBack_wellFormed t _ Ht Hwf) as Hwf1.
  destruct (memoryGetLocation_wellFormed _ Hwf1) as [l Hl].
  assert (queueTask mopts t h =
            (Normal tt,
             mkHistory (commit mopts t (world h)) l (unsub h) (listeners h)
               (blockers h) [] (beforeUnload h) (notified h ++ listeners h)
               (consulted h))) as E.
  { rewrite memory_queueTask by done. rewrite Hq. simpl.
    by rewrite (onUpdate_Some _ _ l). }
  unfold exec, returns. rewrite E. simpl.
  match goal with |- context [issue mopts ts ?x] => set (h1 := x) end.
  destruct (IH h1 Hb eq_refl Hwf1 Hnb) as (Hr & Hw & Hwf' & Hq' & Hb' & Hs).
  split; [exact Hr | split; [exact Hw | split; [exact Hwf' |]]].
  split; [exact Hq' | split; [exact Hb' |]]. intros _. apply Hs. by right.
Qed.

(** X14: on a well-formed in-memory history with nothing queued and no
    blocker, no sequence of [push], [replace], [go] and [forward] calls
    throws: every call returns, the history stays well formed, and after
    the last call [location] is the adapter's location. *)
Theorem X14_memory_without_back_never_throws h ts :
  blockers h = [] -> queue h = [] -> memoryWellFormed (world h) ->
  noBack ts -> ts <> [] ->
  let h' := issue mopts ts h in
  allReturn mopts ts h = true
  /\ world h' = commitAll mopts ts (world h)
  /\ memoryWellFormed (world h')
  /\ queue h' = []
  /\ memoryGetLocation (world h') = Some (location h').
Proof.
  intros Hb Hq Hwf Hnb Hne h'.
  destruct (memory_noBack_issue ts h Hb Hq Hwf Hnb)
    as (Hr & Hw & Hwf' & Hq' & _ & Hs).
  split; [done | split; [done | split; [done | split; [done |]]]].
  apply Hs. by left.
Qed.

(** X15: [back] followed by [forward] puts the adapter back where it was,
    for every valid cursor (the first entry included), while [forward]
    followed by [back] from the last entry ends one entry earlier.  On a
    well-formed history whose cursor is not on the first entry both calls
    return and [location] is restored. *)
Theorem X15_memory_back_then_forward_restores h :
  blockers h = [] -> queue h = [] -> memoryWellFormed (world h) ->
  0 < index (world h) ->
  memoryGetLocation (world h) = Some (location h) ->
  let h1 := exec (history_back mopts) h in
  let h2 := exec (history_forward mopts) h1 in
  (forall w, cursorValid w ->
     commitAll mopts [BackTask; ForwardTask] w = w
     /\ (atEnd w ->
         index (commitAll mopts [ForwardTask; BackTask] w) = index w - 1))
  /\ returns (history_back mopts) h = true
  /\ returns (history_forward mopts) h1 = true
  /\ world h2 = world h /\ location h2 = location h.
Proof.
  intros Hb Hq Hwf Hi Hsync h1 h2.
  assert (forall w, cursorValid w ->
            commitAll mopts [BackTask; ForwardTask] w = w) as Hround.
  { intros [e i s d g] Hc. unfold cursorValid in Hc; simpl in Hc.
    unfold commitAll, commit; simpl. f_equal. lia. }
  split.
  { intros w Hc. split; [by apply Hround |].
    unfold atEnd, commitAll, commit; simpl. lia. }
  destruct (memory_back_inside_returns h Hb Hq Hwf Hi)
    as (Hr1 & Hi1 & Hwf1 & Hs1). fold h1 in Hi1, Hwf1, Hs1.
  assert (blockers h1 = [] /\ queue h1 = []
          /\ world h1 = commit mopts BackTask (world h)) as (Hb1 & Hq1 & Hw1).
  { subst h1. unfold exec, history_back. rewrite memory_queueTask by done.
    rewrite Hq. simpl.
    pose proof (onUpdate_frame mopts
                  (with_queue [] (with_world (commit mopts BackTask (world h)) h)))
      as (Hw & Hq' & _ & _ & Hb' & _).
    unfold exec in *. unfold commitAll; simpl. by rewrite Hw, Hq', Hb'. }
  assert (commit mopts ForwardTask (world h1) = world h) as Hw2.
  { rewrite Hw1. apply (Hround (world h)). apply Hwf. }
  assert (queueTask mopts ForwardTask h1 =
            (Normal tt,
             mkHistory (world h) (location h) (unsub h1) (listeners h1)
               (blockers h1) [] (beforeUnload h1)
               (notified h1 ++ listeners h1) (consulted h1))) as E.
  { rewrite memory_queueTask by done. rewrite Hq1. simpl.
    unfold commitAll; simpl. rewrite Hw2.
    by rewrite (onUpdate_Some _ _ (location h)). }
  subst h2. unfold exec, returns, history_forward. rewrite E. done.
Qed.

(** X16: the in-memory adapter keeps one state for all entries.  After
    [push(path, state)] and then [back], the cursor is where it was and the
    location has the href of the entry it was on, but the keyed state of the
    push. *)
Theorem X16_memory_state_is_shared_by_entries h path st e :
  blockers h = [] -> queue h = [] -> memoryWellFormed (world h) ->
  JsArray.get (entries (world h)) (index (world h)) = Some e ->
  let h1 := exec (push mopts path st) h in
  let h2 := exec (history_back mopts) h1 in
  returns (push mopts path st) h = true
  /\ returns (history_back mopts) h1 = true
  /\ index (world h2) = index (world h)
  /\ location h2 = parseLocation e (Keyed st (draws (world h))).
Proof.
  intros Hb Hq Hwf He h1 h2.
  pose proof (memoryPushState_wellFormed path st _ Hwf) as Hwf1.
  destruct (memoryGetLocation_wellFormed _ Hwf1) as [l1 Hl1].
  assert (queueTask mopts (PushTask path st) h =
            (Normal tt,
             mkHistory (memoryPushState path st (world h)).1 l1
               (unsub h) (listeners h) (blockers h) [] (beforeUnload h)
               (notified h ++ listeners h) (consulted h))) as E1.
  { rewrite memory_queueTask by done. rewrite Hq. simpl.
    by rewrite (onUpdate_Some _ _ l1). }
  assert (h1 = (queueTask mopts (PushTask path st) h).2) as Eh1 by done.
  rewrite E1 in Eh1. simpl in Eh1.
  assert (queueTask mopts BackTask h1 =
            (Normal tt,
             mkHistory (memoryBack (world h1)).1
               (parseLocation e (Keyed st (draws (world h))))
               (unsub h1) (listeners h1) (blockers h1) [] (beforeUnload h1)
               (notified h1 ++ listeners h1) (consulted h1))) as E2.
  { rewrite memory_queueTask by (by rewrite Eh1).
    replace (queue h1) with (@nil (Task St)) by (by rewrite Eh1). simpl.
    rewrite (onUpdate_Some _ _
               (parseLocation e (Keyed st (draws (world h))))); [done |].
    rewrite Eh1. simpl. unfold commitAll, commit, memoryGetLocation; simpl.
    replace (index (world h) + 1 - 1) with (index (world h)) by lia.
    destruct Hwf as [_ Hc]. unfold cursorValid in Hc.
    rewrite get_push_old by lia. by rewrite He. }
  subst h2. unfold exec, returns, push, history_back.
  rewrite E1. fold (exec (queueTask mopts (PushTask path st)) h).
  change (exec (queueTask mopts (PushTask path st)) h) with h1.
  rewrite E2. simpl. rewrite Eh1. simpl.
  split; [done | split; [done | split; [lia | done]]].
Qed.

Lemma memory_commit_withinEnd t w :
  withinEnd w -> withinEnd (commit mopts t w).
Proof.
  intros [H0 Hi]. unfold withinEnd, commit.
  destruct t; simpl; try (split; lia).
  destruct (Z.leb_spec (JsArray.length (entries w)) (index w)); split; lia.
Qed.

(** X17: the cursor never runs past the last entry: whatever closures run,
    [back] included, the cursor stays at or before the last position. *)
Theorem X17_memory_cursor_never_passes_end w ts :
  withinEnd w -> withinEnd (commitAll mopts ts w).
Proof.
  revert w; induction ts as [|t ts IH]; intros w Hw; [done |].
  change (commitAll mopts (t :: ts) w)
    with (commitAll mopts ts (commit mopts t w)).
  apply IH. by apply memory_commit_withinEnd.
Qed.

Lemma memory_commit_noBack_atEnd t w :
  isBack t = false -> memoryWellFormed w -> atEnd w ->
  atEnd (commit mopts t w).
Proof.
  intros Ht [_ Hc] He. unfold atEnd, cursorValid, commit in *.
  destruct t; try done; simpl; try lia.
  destruct (Z.leb_spec (JsArray.length (entries w)) (index w)); lia.
Qed.

Lemma memory_commitAll_noBack_atEnd ts w :
  noBack ts -> memoryWellFormed w -> atEnd w ->
  atEnd (commitAll mopts ts w) /\ memoryWellFormed (commitAll mopts ts w).
Proof.
  revert w; induction ts as [|t ts IH]; intros w Hnb Hwf He; [done |].
  apply Forall_cons in Hnb as [Ht Hnb].
  change (commitAll mopts (t :: ts) w)
    with (commitAll mopts ts (commit mopts t w)).
  apply IH; [done | |].
  - by apply memory_commit_noBack_wellFormed.
  - by apply memory_commit_noBack_atEnd.
Qed.

(** X18: a history that never goes back shows what was pushed last.  From a
    well-formed history whose cursor is on the last entry, after any calls
    other than [back] a [push(path)] leaves the cursor on the last entry and
    [location] parsed from [path]. *)
Theorem X18_memory_push_at_end_shows_pushed_path h ts path st :
  blockers h = [] -> queue h = [] -> memoryWellFormed (world h) ->
  atEnd (world h) -> noBack ts ->
  let h' := issue mopts (ts ++ [PushTask path st]) h in
  atEnd (world h')
  /\ href (location h') = path
  /\ exists key, location h' = parseLocation path (Keyed st key).
Proof.
  intros Hb Hq Hwf He Hnb h'.
  assert (noBack (ts ++ [PushTask path st])) as Hnb'.
  { apply Forall_app. split; [done |]. by apply Forall_singleton. }
  destruct (memory_noBack_issue _ h Hb Hq Hwf Hnb')
    as (_ & Hw & _ & _ & _ & Hs).
  fold h' in Hw, Hs.
  assert (memoryGetLocation (world h') = Some (location h')) as Hsync.
  { apply Hs. left. by destruct ts. }
  rewrite Hw, commitAll_app in Hsync. rewrite Hw, commitAll_app.
  destruct (memory_commitAll_noBack_atEnd ts (world h) Hnb Hwf He)
    as [He1 Hwf1].
  set (w1 := commitAll mopts ts (world h)) in *.
  split; [by apply memory_commit_noBack_atEnd |].
  unfold commitAll, commit, memoryGetLocation in Hsync; simpl in Hsync.
  replace (index w1 + 1) with (JsArray.length (entries w1)) in Hsync
    by (unfold atEnd in He1; lia).
  rewrite get_push_new in Hsync. injection Hsync as <-.
  split; [done | by eexists].
Qed.

End MemoryExtras.

(** ** The browser adapter: subscription, writes and requests *)

Section BrowserExtras.

Context {St : Type}.
Variable getHref : Window St -> string.
Variable createHref' : string -> string.
Implicit Types (w : Window St) (h : History St (Window St)).

Local Abbreviation bopts := (browserOpts getHref createHref').

(** X19: on every history reached by any script of calls from a browser
    history created on a page with no subscription, the handler is
    registered and the platform functions are wrapped exactly when the
    listener set is not empty, the functions are wrapped at most once, and
    the listener set has no duplicate. *)
Theorem X19_browser_subscription_follows_listeners
    (address0 : string) (cs : list (Call St)) :
  exists h0,
    createHistory bopts (freshWindow address0) = Some h0
    /\ let h := run bopts cs h0 in
       (bound (world h) = true <-> listeners h <> [])
       /\ wrappers (world h) = (if listeners h is [] then 0 else 1)%nat
       /\ NoDup (listeners h).
Proof.
  eexists. split; [reflexivity |].
  match goal with |- context [run bopts cs ?x] => set (h0 := x) end.
  destruct (browser_subscribed_iff_listening getHref createHref'
              (freshWindow address0) h0 cs) as (Hnd & Hs & Hu & Hiff);
    [done | done |].
  cbv zeta in *. split; [exact Hiff | split; [| exact Hnd]].
  destruct (listeners (run bopts cs h0)) as [|c l].
  - by destruct (Hu eq_refl).
  - by destruct Hs.
Qed.


(** X21: on a browser history with nothing queued and no blocker, [back],
    [forward] and [go(n)] only pass the request to the platform: the call
    returns with the address, [location] and the listeners' log unchanged
    (they change when the platform later reports the navigation). *)
Theorem X21_browser_traversal_only_requests h n :
  blockers h = [] -> queue h = [] ->
  let requested r h' :=
    requests (world h') = requests (world h) ++ [r]
    /\ address (world h') = address (world h)
    /\ historyState (world h') = historyState (world h)
    /\ location h' = location h /\ notified h' = notified h
    /\ queue h' = [] in
  returns (history_back bopts) h = true
  /\ requested RequestBack (exec (history_back bopts) h)
  /\ returns (history_forward bopts) h = true
  /\ requested RequestForward (exec (history_forward bopts) h)
  /\ returns (history_go bopts n) h = true
  /\ requested (RequestGo n) (exec (history_go bopts n) h).
Proof.
  intros Hb Hq requested. subst requested.
  destruct h as [w l u ls bs q bu nt cs']; simpl in *. subst bs q.
  unfold exec, returns, history_back, history_forward, history_go,
    queueTask, bind, modify, tryFlush; simpl.
  done.
Qed.

End BrowserExtras.

(** ** The further properties on concrete inputs *)

Lemma X1_parse_without_delimiters_witness :
  let l := parseLocation "/about" tt in
  pathname l = "/about" /\ search l = "" /\ hash l = ""
  /\ recompose l = "/about".
Proof.
  exact (X1_parse_without_delimiters "/about" tt eq_refl eq_refl).
Defined.

Lemma X3_parse_search_before_hash_witness :
  let l := parseLocation "/a?b=1#c" tt in
  pathname l = "/a" /\ search l = "?b=1" /\ hash l = "#c".
Proof.
  assert (0 < JsString.indexOf "?" "/a?b=1#c" < JsString.indexOf "#" "/a?b=1#c")
    as H by (change (0 < 2 < 6); lia).
  exact (X3_parse_search_before_hash "/a?b=1#c" tt H).
Defined.

Lemma X4_parse_query_after_hash_witness :
  let l := parseLocation "/a#b?c" tt in
  search l = "" /\ hash l = "#b?c"
  /\ JsString.indexOf "?" (hash l) = 2.
Proof.
  assert (0 <= JsString.indexOf "#" "/a#b?c" < JsString.indexOf "?" "/a#b?c")
    as H by (change (0 <= 2 < 4); lia).
  exact (X4_parse_query_after_hash "/a#b?c" tt H).
Defined.

Lemma X5_parse_pathname_has_no_delimiter_witness :
  let l := parseLocation "/a/b?c=d#e" tt in
  pathname l = "/a/b"
  /\ JsString.indexOf "#" (pathname l) = -1
  /\ JsString.indexOf "?" (pathname l) = -1.
Proof.
  assert (JsString.indexOf "#" "/a/b?c=d#e" <> 0) as Hh
    by (change (8 <> 0); lia).
  assert (JsString.indexOf "?" "/a/b?c=d#e" <> 0) as Hq
    by (change (4 <> 0); lia).
  split; [reflexivity |].
  exact (X5_parse_pathname_has_no_delimiter "/a/b?c=d#e" tt Hh Hq).
Defined.

Lemma X7_unload_guard_witness :
  exists h0,
    createMemoryHistory (St := unit) ["/"] None = Some h0
    /\ let h := run mem [CallBlock 1%nat; CallBlock 2%nat; CallPush "/a" tt;
                         CallUnblock 1%nat] h0 in
       blockers h = [2%nat]
       /\ (beforeUnload h = true <-> blockers h <> []).
Proof.
  eexists. split; [reflexivity |]. split; [reflexivity |].
  exact (X7_unload_guard_follows_blockers mem (memoryWorld ["/"] None) _
           [CallBlock 1%nat; CallBlock 2%nat; CallPush "/a" tt;
            CallUnblock 1%nat] eq_refl).
Defined.

Lemma X9_only_first_blocker_witness :
  exists h0,
    createMemoryHistory (St := unit) ["/"] None = Some h0
    /\ let h := exec (block 8%nat) (exec (block 7%nat) h0) in
       let h' := issue mem [PushTask "/a" tt; BackTask] h in
       consulted h' = consulted h ++ replicate 2 7%nat
       /\ notified h' = notified h /\ blockers h' = [7%nat; 8%nat].
Proof.
  eexists. split; [reflexivity |]. cbv zeta.
  match goal with |- context [issue mem _ ?x] => set (h := x) end.
  exact (X9_only_first_blocker_is_consulted mem h 7%nat [8%nat]
           [PushTask "/a" tt; BackTask] eq_refl).
Defined.

Lemma X10_cancelled_push_witness :
  exists h0,
    createMemoryHistory (St := unit) ["/"] None = Some h0
    /\ let h := exec (block 7%nat) h0 in
       let h2 := exec cancel (exec (push mem "/a" tt) h) in
       let h3 := exec (push mem "/b" tt) h2 in
       entries (world h2) = JsArray.of_list ["/"]
       /\ world h3
          = commit mem (PushTask "/b" tt)
              (commit mem (PushTask "/a" tt) (world h))
       /\ entries (world h3) = JsArray.of_list ["/"; "/a"; "/b"].
Proof.
  eexists. split; [reflexivity |]. cbv zeta.
  match goal with |- context [exec (push mem "/a" tt) ?x] => set (h := x) end.
  assert (blockers h <> []) as Hb by discriminate.
  pose proof (X10_cancelled_push_runs_with_next_call mem h "/a" tt
                (PushTask "/b" tt) Hb eq_refl eq_refl) as (Hw2 & _ & Hw3 & _).
  cbv zeta in *.
  change (push mem "/b" tt) with (queueTask mem (PushTask "/b" tt)).
  split; [rewrite Hw2; reflexivity | split; [exact Hw3 |]].
  rewrite Hw3. reflexivity.
Defined.

Lemma X11_unblock_does_not_flush_witness :
  exists h0,
    createMemoryHistory (St := unit) ["/"] None = Some h0
    /\ let h := exec (block 7%nat) h0 in
       let h2 := exec (unblock 7%nat) (issue mem [PushTask "/a" tt] h) in
       blockers h2 = [] /\ queue h2 = [PushTask "/a" tt]
       /\ world h2 = world h /\ location h2 = location h.
Proof.
  eexists. split; [reflexivity |]. cbv zeta.
  match goal with |- context [issue mem _ ?x] => set (h := x) end.
  pose proof (X11_unblock_does_not_flush mem h 7%nat [PushTask "/a" tt]
                eq_refl) as (_ & Hb & _ & Hq & Hw & Hl & _).
  cbv zeta in *.
  split; [exact Hb | split; [exact Hq | split; [exact Hw | exact Hl]]].
Defined.

Lemma X13_memory_replace_witness :
  exists h,
    createMemoryHistory (St := unit) ["/a"; "/b"] (Some 0) = Some h
    /\ let h' := exec (replace mem "/x" tt) h in
       location h' = parseLocation "/x" (Keyed tt O)
       /\ entries (world h') = JsArray.of_list ["/x"; "/b"]
       /\ index (world h') = 0.
Proof.
  eexists. split; [reflexivity |]. cbv zeta.
  match goal with |- context [exec (replace mem "/x" tt) ?x] =>
    set (h := x)
  end.
  assert (memoryWellFormed (world h)) as Hwf
    by (apply (memoryWorld_wellFormed ["/a"; "/b"] 0); simpl; lia).
  pose proof (X13_memory_replace_overwrites_cursor_entry h "/x" tt
                eq_refl eq_refl Hwf) as (_ & Hl & Hi & _).
  cbv zeta in *.
  split; [exact Hl | split; [reflexivity | exact Hi]].
Defined.

Lemma X14_memory_without_back_witness :
  exists h,
    createMemoryHistory (St := unit) ["/a"; "/b"] (Some 0) = Some h
    /\ let ts := [PushTask "/c" tt; ForwardTask; ReplaceTask "/d" tt;
                  GoTask 2] in
       let h' := issue mem ts h in
       allReturn mem ts h = true
       /\ memoryWellFormed (world h')
       /\ memoryGetLocation (world h') = Some (location h')
       /\ href (location h') = "/d".
Proof.
  eexists. split; [reflexivity |]. cbv zeta.
  match goal with |- context [issue mem _ ?x] => set (h := x) end.
  assert (memoryWellFormed (world h)) as Hwf
    by (apply (memoryWorld_wellFormed ["/a"; "/b"] 0); simpl; lia).
  assert (noBack [PushTask "/c" tt; ForwardTask; ReplaceTask "/d" tt;
                  GoTask (St := unit) 2]) as Hnb
    by (repeat constructor).
  assert ([PushTask "/c" tt; ForwardTask; ReplaceTask "/d" tt;
           GoTask (St := unit) 2] <> []) as Hne by discriminate.
  pose proof (X14_memory_without_back_never_throws h _ eq_refl eq_refl Hwf
                Hnb Hne) as (Hr & _ & Hwf' & _ & Hs).
  cbv zeta in *.
  split; [exact Hr | split; [exact Hwf' | split; [exact Hs | reflexivity]]].
Defined.

Lemma X15_memory_back_then_forward_witness :
  exists h,
    createMemoryHistory (St := unit) ["/a"; "/b"] (Some 1) = Some h
    /\ let h2 := exec (history_forward mem) (exec (history_back mem) h) in
       world h2 = world h /\ location h2 = location h
       /\ href (location h2) = "/b".
Proof.
  eexists. split; [reflexivity |]. cbv zeta.
  match goal with |- context [exec (history_back mem) ?x] => set (h := x) end.
  assert (memoryWellFormed (world h)) as Hwf
    by (apply (memoryWorld_wellFormed ["/a"; "/b"] 1); simpl; lia).
  assert (0 < index (world h)) as Hi by (change (0 < 1); lia).
  pose proof (X15_memory_back_then_forward_restores h eq_refl eq_refl Hwf Hi
                eq_refl) as (_ & _ & _ & Hw & Hl).
  cbv zeta in *.
  split; [exact Hw | split; [exact Hl |]]. unfold mem. rewrite Hl. reflexivity.
Defined.

Lemma X16_memory_state_is_shared_witness :
  exists h,
    createMemoryHistory (St := unit) ["/a"] None = Some h
    /\ let h2 := exec (history_back mem) (exec (push mem "/b" tt) h) in
       href (location h) = "/a" /\ state (location h) = EmptyState
       /\ href (location h2) = "/a"
       /\ state (location h2) = Keyed tt O.
Proof.
  eexists. split; [reflexivity |]. cbv zeta.
  match goal with |- context [exec (push mem "/b" tt) ?x] => set (h := x) end.
  assert (memoryWellFormed (world h)) as Hwf
    by (apply (memoryWorld_wellFormed ["/a"] 0); simpl; lia).
  pose proof (X16_memory_state_is_shared_by_entries h "/b" tt "/a"
                eq_refl eq_refl Hwf eq_refl) as (_ & _ & _ & Hl).
  cbv zeta in *. unfold mem. rewrite Hl.
  split; [reflexivity | split; [reflexivity | split; reflexivity]].
Defined.

Lemma X17_memory_cursor_never_passes_end_witness :
  let w := memoryWorld (St := unit) ["/a"] None in
  let w' := commitAll mem [BackTask; BackTask; ForwardTask;
                           PushTask "/b" tt; ForwardTask; ForwardTask] w in
  withinEnd w /\ withinEnd w'.
Proof.
  assert (withinEnd (memoryWorld (St := unit) ["/a"] None)) as Hw
    by (split; simpl; lia).
  split; [exact Hw |].
  exact (X17_memory_cursor_never_passes_end _ _ Hw).
Defined.

Lemma X18_memory_push_at_end_witness :
  exists h,
    createMemoryHistory (St := unit) ["/a"; "/b"] None = Some h
    /\ let h' := issue mem ([ReplaceTask "/x" tt; ForwardTask; GoTask 1]
                            ++ [PushTask "/c" tt]) h in
       atEnd (world h') /\ href (location h') = "/c".
Proof.
  eexists. split; [reflexivity |]. cbv zeta.
  match goal with |- context [issue mem _ ?x] => set (h := x) end.
  assert (memoryWellFormed (world h)) as Hwf
    by (apply (memoryWorld_wellFormed ["/a"; "/b"] 1); simpl; lia).
  assert (noBack [ReplaceTask "/x" tt; ForwardTask; GoTask (St := unit) 1])
    as Hnb by (repeat constructor).
  pose proof (X18_memory_push_at_end_shows_pushed_path h _ "/c" tt
                eq_refl eq_refl Hwf eq_refl Hnb) as (He & Hh & _).
  cbv zeta in *. split; [exact He | exact Hh].
Defined.


Lemma X21_browser_traversal_witness :
  exists h,
    createBrowserHistory (St := unit) (freshWindow "/") = Some h
    /\ let h' := exec (history_back web) h in
       requests (world h') = [RequestBack]
       /\ address (world h') = "/" /\ location h' = location h
       /\ notified h' = [].
Proof.
  eexists. split; [reflexivity |]. cbv zeta.
  match goal with |- context [exec (history_back web) ?x] => set (h := x) end.
  pose proof (X21_browser_traversal_only_requests address (fun path => path)
                h 0 eq_refl eq_refl) as (_ & (Hr & Ha & _ & Hl & Hn & _) & _).
  split; [exact Hr | split; [exact Ha | split; [exact Hl | exact Hn]]].
Defined.
